(** * Isolation forest: a shallow embedding of [anomdet/iforest.py]

    The development follows the source file top to bottom:
    - [Py]      : the Python and numpy values the code computes with
                  (ints and floats, exceptions, float division by zero);
    - [_adjustment] : the expected-path-length estimator;
    - [ITree]   : tree nodes, [_grow], [fit], [path_length_and_leaf_size];
    - [IForest] : the ensemble, [fit] and [predict].

    Numbers.  The repository is Python 2 code ([datasets/digits.py] uses
    [print] statements and [dict.iteritems], and writes [float(a) / b] where
    it wants a real quotient); [iforest.py] does not import [division] from
    [__future__].  So [/] between two Python ints is floor division, and
    between floats it is the real quotient.  Floats are idealised: feature
    values and thresholds are exact rationals ([Q]), scores are real numbers
    ([R]); rounding, overflow and underflow are not modelled, the non-finite
    results of a float division by zero are. *)

From Stdlib Require Import List ZArith QArith Qround Qreals Reals Psatz Bool.
From Stdlib Require Import Permutation Arith ZifyBool.
Import ListNotations.

(* Scopes are written out: numbers of four kinds meet in this file. *)
Close Scope Q_scope.

(* ------------------------------------------------------------------ *)
(** ** Python values *)

Module Py.

(** A Python number as the code meets it: an [int] or a [float]. *)
Inductive pynum : Type :=
| PyInt (z : Z)
| PyFloat (q : Q).

Definition toQ (n : pynum) : Q :=
  match n with
  | PyInt z => inject_Z z
  | PyFloat q => q
  end.

Definition toR (n : pynum) : R :=
  match n with
  | PyInt z => IZR z
  | PyFloat q => Q2R q
  end.

(** [x < y] on rationals, as a boolean. *)
Definition Qlt_bool (x y : Q) : bool := negb (Qle_bool y x).

(** The exceptions that the modelled code can raise. *)
Inductive exn : Type :=
| ValueError        (* randint(0): empty range *)
| TypeError         (* a float used as a slice bound *)
| IndexError        (* x[i] with i out of range *)
| AttributeError    (* self.psi read before fit *)
| RecursionError.   (* the interpreter's recursion limit *)

Inductive result (A : Type) : Type :=
| Ok (a : A)
| Raise (e : exn).
Arguments Ok {A} a.
Arguments Raise {A} e.

Definition rbind {A B} (r : result A) (k : A -> result B) : result B :=
  match r with
  | Ok a => k a
  | Raise e => Raise e
  end.

(** A numpy float64 with its non-finite values.  [Fin r] is a finite
    value; numpy division by zero yields the others (with a warning,
    never an exception). *)
Inductive xfloat : Type :=
| Fin (r : R)
| PInf
| NInf
| NaN.

Definition np_neg (x : xfloat) : xfloat :=
  match x with
  | Fin r => Fin (- r)
  | PInf => NInf
  | NInf => PInf
  | NaN => NaN
  end.

(** [x / d] for a float (array element) [x] and a finite scalar [d].
    The scalars of [predict] are never negative zero. *)
Definition np_div (x : xfloat) (d : R) : xfloat :=
  match x with
  | Fin r =>
      if Req_dec_T d 0 then
        (if Req_dec_T r 0 then NaN
         else if Rlt_dec 0 r then PInf else NInf)
      else Fin (r / d)
  | PInf => if Rlt_dec d 0 then NInf else PInf
  | NInf => if Rlt_dec d 0 then PInf else NInf
  | NaN => NaN
  end.

(** [2 ** x]. *)
Definition np_exp2 (x : xfloat) : xfloat :=
  match x with
  | Fin r => Fin (Rpower 2 r)
  | PInf => PInf
  | NInf => Fin 0
  | NaN => NaN
  end.

(** Python's [l[:k]] for an int [k]: a negative [k] counts from the end. *)
Definition slice_to {A} (l : list A) (k : Z) : list A :=
  if (0 <=? k)%Z then firstn (Z.to_nat k) l
  else firstn (length l - Z.to_nat (- k)) l.

(** The builtin [min] and [max] over a non-empty sequence keep the first
    extremal element.  On an empty sequence Python raises; [_grow] calls
    them on at least two rows only, and the model returns 0 there. *)
Definition pymin (l : list Q) : Q :=
  match l with
  | [] => 0%Q
  | x :: xs => fold_left (fun acc y => if Qlt_bool y acc then y else acc) xs x
  end.

Definition pymax (l : list Q) : Q :=
  match l with
  | [] => 0%Q
  | x :: xs => fold_left (fun acc y => if Qlt_bool acc y then y else acc) xs x
  end.

End Py.
Import Py.

(* ------------------------------------------------------------------ *)
(** ** The expected-path-length estimator *)

(** The constant written in the source. *)
Definition euler_gamma : R := 0.5772156649%R.

(** [2*(n-1) / n]: floor division when [n] is an int (Python 2), the real
    quotient when [n] is a float. *)
Definition two_nm1_over_n (n : pynum) : R :=
  match n with
  | PyInt z => IZR (2 * (z - 1) / z)
  | PyFloat q => (2 * (Q2R q - 1) / Q2R q)%R
  end.

(** [_adjustment(n)], lines 90-97. *)
Definition _adjustment (n : pynum) : R :=
  if Qle_bool (toQ n) 1 then 0%R
  else if Qeq_bool (toQ n) 2 then 1%R
  else (2 * (ln (toR n - 1) + euler_gamma) - two_nm1_over_n n)%R.

(** The reference estimator, following the words of the specification:
    [c(n) = 0] for [n <= 1], [c(2) = 1], otherwise
    [2(ln(n-1) + gamma) - 2(n-1)/n]. *)
Definition c_ref (n : Z) : R :=
  if (n <=? 1)%Z then 0%R
  else if (n =? 2)%Z then 1%R
  else (2 * (ln (IZR n - 1) + euler_gamma) - 2 * (IZR n - 1) / IZR n)%R.

(* ------------------------------------------------------------------ *)
(** ** The random generator

    [numpy.random.RandomState] is not part of the repository.  The code
    uses three of its methods and the constructor from a seed; they are
    taken as an interface, with the ranges numpy documents for them. *)

Class RandomState (G : Type) : Type := {
  (** [RandomState(seed)] *)
  seed : Z -> G;
  (** [g.randint(n)] for [0 < n]: an int in [0, n) *)
  randint : nat -> G -> nat * G;
  (** [g.random_sample()]: a float in [0, 1) *)
  random_sample : G -> Q * G;
  (** [g.permutation(n)]: the indices [0 .. n-1] in some order *)
  permutation : nat -> G -> list nat * G;
  randint_range :
    forall n g, (0 < n)%nat -> (fst (randint n g) < n)%nat;
  random_sample_range :
    forall g, (0 <= fst (random_sample g))%Q /\ (fst (random_sample g) < 1)%Q;
  permutation_perm :
    forall n g, Permutation (fst (permutation n g)) (seq 0 n)
}.

(** Computations that consume the generator and may raise.  The state
    survives an exception, as the mutated generator object does. *)
Definition M (G A : Type) : Type := G -> result A * G.

Definition ret {G A} (a : A) : M G A := fun g => (Ok a, g).

Definition raise {G A} (e : exn) : M G A := fun g => (Raise e, g).

Definition bind {G A B} (c : M G A) (k : A -> M G B) : M G B :=
  fun g =>
    match c g with
    | (Ok a, g') => k a g'
    | (Raise e, g') => (Raise e, g')
    end.

Definition draw {G A} (f : G -> A * G) : M G A :=
  fun g => let (a, g') := f g in (Ok a, g').

Notation "x <- c ;; k" := (bind c (fun x => k))
  (at level 61, c at next level, right associativity).

(* ------------------------------------------------------------------ *)
(** ** Sample matrices *)

(** A two-dimensional float array of shape [(m, n)]: [m] is the number of
    rows, [n] is carried explicitly because an empty selection keeps it. *)
Record ndarray : Type := mk_ndarray {
  ncols : nat;
  rows : list (list Q)
}.

Definition nrows (X : ndarray) : nat := length (rows X).

(** [x[j]] inside [_grow], where [j] comes from [randint(n)]. *)
Definition feature (j : nat) (x : list Q) : Q := nth j x 0%Q.

(** [X[:, j]] *)
Definition column (X : ndarray) (j : nat) : list Q :=
  map (feature j) (rows X).

(** [X[mask]] for a boolean mask computed row by row. *)
Definition select (p : list Q -> bool) (X : ndarray) : ndarray :=
  {| ncols := ncols X; rows := filter p (rows X) |}.

(** [X[ind, :]] for an index list taken from a permutation of the rows. *)
Definition take (X : ndarray) (ind : list nat) : ndarray :=
  {| ncols := ncols X; rows := map (fun i => nth i (rows X) []) ind |}.

(* ------------------------------------------------------------------ *)
(** ** Isolation trees *)

(** [ITreeLeaf] and [ITreeNode]. *)
Inductive node : Type :=
| ITreeLeaf (size : nat)
| ITreeNode (split_attribute : nat) (split_value : Q) (_left _right : node).

(** The values [height_limit] can hold: an int given at construction, or
    the float [np.ceil(np.log2(psi))], which is integral, [-inf] when
    [psi = 0] and [nan] when [psi < 0]. *)
Inductive height : Type :=
| Hfin (z : Z)
| Hneginf
| Hnan.

(** [current_height >= height_limit]; every comparison with [nan] is
    false. *)
Definition height_reached (current_height : Z) (height_limit : height) : bool :=
  match height_limit with
  | Hfin h => (h <=? current_height)%Z
  | Hneginf => true
  | Hnan => false
  end.

(** [ITreeNode.compare]: [x[self.split_attribute] >= self.split_value]. *)
Definition compare (split_attribute : nat) (split_value : Q) (x : list Q)
  : result bool :=
  match nth_error x split_attribute with
  | Some v => Ok (Qle_bool split_value v)
  | None => Raise IndexError
  end.

(** The two masks of [_grow]. *)
Definition goes_left (split_att : nat) (split_value : Q) (x : list Q) : bool :=
  Qlt_bool (feature split_att x) split_value.

Definition goes_right (split_att : nat) (split_value : Q) (x : list Q) : bool :=
  Qle_bool split_value (feature split_att x).

Module ITree.

Record t : Type := mk {
  height_limit : height;
  root : node
}.

Section Grow.
Context {G : Type} {RS : RandomState G}.

(** [self.random_state.randint(n)]: numpy raises on an empty range. *)
Definition py_randint (n : nat) : M G nat :=
  if (n =? 0)%nat then raise ValueError else draw (randint n).

(** [_grow], lines 130-150.  [fuel] is the number of nested calls the
    interpreter still allows. *)
Fixpoint _grow (fuel : nat) (X : ndarray) (current_height : Z)
    (height_limit : height) : M G node :=
  match fuel with
  | O => raise RecursionError
  | S fuel' =>
      let m := nrows X in
      let n := ncols X in
      if height_reached current_height height_limit || (m <=? 1)%nat then
        ret (ITreeLeaf m)
      else
        split_att <- py_randint n ;;
        let a := pymin (column X split_att) in
        let b := pymax (column X split_att) in
        u <- draw random_sample ;;
        let split_value := (a + (b - a) * u)%Q in
        let X_left := select (goes_left split_att split_value) X in
        let X_right := select (goes_right split_att split_value) X in
        l <- _grow fuel' X_left (current_height + 1) height_limit ;;
        r <- _grow fuel' X_right (current_height + 1) height_limit ;;
        ret (ITreeNode split_att split_value l r)
  end.

(** [ITree(height_limit, random_state).fit(X)], lines 109-114. *)
Definition fit (recursion_limit : nat) (height_limit : height) (X : ndarray)
  : M G t :=
  root <- _grow recursion_limit X 0 height_limit ;;
  ret {| height_limit := height_limit; root := root |}.

End Grow.

(** The loop of [path_length_and_leaf_size], lines 120-128. *)
Fixpoint walk (treenode : node) (x : list Q) (path_length : nat)
  : result (nat * nat) :=
  match treenode with
  | ITreeLeaf size => Ok (path_length, size)
  | ITreeNode split_attribute split_value _left _right =>
      rbind (compare split_attribute split_value x) (fun c =>
        if c : bool then walk _right x (S path_length)
        else walk _left x (S path_length))
  end.

Definition path_length_and_leaf_size (self : t) (x : list Q)
  : result (nat * nat) :=
  walk (root self) x 0.

End ITree.

(* ------------------------------------------------------------------ *)
(** ** The isolation forest *)

(** [np.ceil(np.log2(psi))]: the least [k] with [psi <= 2^k] for a
    positive [psi]; [-inf] at zero and [nan] below. *)
Definition np_ceil_log2 (psi : pynum) : height :=
  let q := toQ psi in
  if Qlt_bool q 0 then Hnan
  else if Qeq_bool q 0 then Hneginf
  else if Qle_bool 1 q then Hfin (Z.log2_up (Qceiling q))
  else Hfin (- Z.log2 (Qfloor (/ q))).

(** Lines 61-65 of [fit]: the resolved subsample size for [m] rows. *)
Definition resolve_psi (subsample_size : pynum) (m : nat) : pynum :=
  if Qle_bool (toQ subsample_size) 1 then
    PyInt (Qceiling (toQ subsample_size * inject_Z (Z.of_nat m)))
  else subsample_size.

Module IForest.

Section Forest.
Context {G : Type} {RS : RandomState G}.

(** The [random_state] constructor argument: [None], an int seed, or a
    generator object (held here with its current state). *)
Inductive random_state_arg : Type :=
| RSNone
| RSSeed (s : Z)
| RSInstance (g : G).

Record t : Type := mk {
  num_trees : nat;
  subsample_size : pynum;
  trees : list ITree.t;
  height_limit : option height;
  random_state : random_state_arg;
  psi : option pynum        (* not set before the first [fit] *)
}.

(** [__init__], lines 51-56. *)
Definition init (num_trees : nat) (subsample_size : pynum)
    (height_limit : option height) (random_state : random_state_arg) : t :=
  {| num_trees := num_trees;
     subsample_size := subsample_size;
     trees := [];
     height_limit := height_limit;
     random_state := random_state;
     psi := None |}.

(** Modelled from the spec: [maybe_default_random_state] lives in
    [anomdet/utils.py], which is not among the sources.  The class
    docstring and the configuration table say: an int is the seed of a new
    generator, a generator is used as it is, [None] means the process-wide
    generator of [np.random] (whose state is [np_random] here). *)
Definition maybe_default_random_state (rs : random_state_arg) (np_random : G)
  : G :=
  match rs with
  | RSNone => np_random
  | RSSeed s => seed s
  | RSInstance g => g
  end.

(** Where the consumed generator lives after the call: the process-wide
    one or the object passed in are advanced, a generator made from a seed
    is dropped. *)
Definition after_random_state (rs : random_state_arg) (used np_random : G)
  : random_state_arg * G :=
  match rs with
  | RSNone => (RSNone, used)
  | RSSeed s => (RSSeed s, np_random)
  | RSInstance _ => (RSInstance used, np_random)
  end.

(** [perm[:psi]]: numpy refuses a float as a slice bound. *)
Definition py_slice (perm : list nat) (psi : pynum) : M G (list nat) :=
  match psi with
  | PyInt k => ret (slice_to perm k)
  | PyFloat _ => raise TypeError
  end.

(** The loop of [fit], lines 69-73: [k] iterations remain, [trees] is the
    list built so far. *)
Fixpoint build_trees (recursion_limit : nat) (X : ndarray) (psi : pynum)
    (h : height) (k : nat) (trees : list ITree.t) : M G (list ITree.t) :=
  match k with
  | O => ret trees
  | S k' =>
      perm <- draw (permutation (nrows X)) ;;
      sample_ind <- py_slice perm psi ;;
      let X_sample := take X sample_ind in
      tree <- ITree.fit recursion_limit h X_sample ;;
      build_trees recursion_limit X psi h k' (trees ++ [tree])
  end.

(** [fit], lines 58-76.  The result is the outcome, the forest object
    after the call and the process-wide generator after the call.
    [height_limit] is assigned before the loop, so it stays assigned when
    the loop raises. *)
Definition fit (recursion_limit : nat) (self : t) (X : ndarray) (np_random : G)
  : result unit * t * G :=
  let g := maybe_default_random_state (random_state self) np_random in
  let old_psi := psi self in
  let m := nrows X in
  let psi := resolve_psi (subsample_size self) m in
  let h := match height_limit self with
           | None => np_ceil_log2 psi
           | Some h => h
           end in
  let '(r, g') := build_trees recursion_limit X psi h (num_trees self) [] g in
  let '(rs', np_random') := after_random_state (random_state self) g' np_random in
  match r with
  | Ok trees =>
      (Ok tt,
       {| num_trees := num_trees self;
          subsample_size := subsample_size self;
          trees := trees;
          height_limit := Some h;
          random_state := rs';
          psi := Some psi |},
       np_random')
  | Raise e =>
      (Raise e,
       {| num_trees := num_trees self;
          subsample_size := subsample_size self;
          trees := trees self;
          height_limit := Some h;
          random_state := rs';
          psi := old_psi |},
       np_random')
  end.

(** The inner loop of [predict], lines 83-85: [score] is [scores[i]]. *)
Fixpoint add_trees (trees : list ITree.t) (x : list Q) (score : R)
  : result R :=
  match trees with
  | [] => Ok score
  | tree :: rest =>
      rbind (ITree.path_length_and_leaf_size tree x) (fun pl =>
        let '(path_length, leaf_size) := pl in
        add_trees rest x
          (score + (INR path_length
                    + _adjustment (PyInt (Z.of_nat leaf_size))))%R)
  end.

(** The outer loop, lines 81-85. *)
Fixpoint sum_rows (trees : list ITree.t) (X : list (list Q))
  : result (list R) :=
  match X with
  | [] => Ok []
  | x :: rest =>
      rbind (add_trees trees x 0%R) (fun s =>
        rbind (sum_rows trees rest) (fun ss => Ok (s :: ss)))
  end.

(** Line 87 for one entry: [2**(-s / len(self.trees) / _adjustment(psi))]. *)
Definition normalise (num : nat) (psi : pynum) (s : R) : xfloat :=
  np_exp2 (np_div (np_div (np_neg (Fin s)) (INR num)) (_adjustment psi)).

(** [predict], lines 78-88. *)
Definition predict (self : t) (X : ndarray) : result (list xfloat) :=
  rbind (sum_rows (trees self) (rows X)) (fun scores =>
    match psi self with
    | None => Raise AttributeError
    | Some psi => Ok (map (normalise (length (trees self)) psi) scores)
    end).

End Forest.

Arguments random_state_arg G : clear implicits.
Arguments t G : clear implicits.

End IForest.

(* ------------------------------------------------------------------ *)
(** ** The specification's reading of the engine

    These definitions follow the words of the specification, not the
    code; the theorems below compare the two. *)

(** "Draw threshold uniformly from [a, b)", with the edge case the
    specification spells out: when [a == b] the threshold is [a]. *)
Definition drawn_from (a b threshold : Q) : Prop :=
  (a <= threshold)%Q /\
  ((threshold < b)%Q \/ ((a == b)%Q /\ (threshold == a)%Q)).

(** Section 4.1: a leaf with the row count when the depth has reached the
    height limit or at most one row is left; otherwise an internal node
    holding a feature index among the [n] columns, a threshold drawn from
    [a, b) for the minimum [a] and maximum [b] of that feature, and the
    trees grown from the rows below the threshold and from the others,
    one level deeper. *)
Inductive grown (height_limit : height) : ndarray -> Z -> node -> Prop :=
| grown_leaf (X : ndarray) (depth : Z) :
    height_reached depth height_limit = true \/ (nrows X <= 1)%nat ->
    grown height_limit X depth (ITreeLeaf (nrows X))
| grown_split (X : ndarray) (depth : Z) (j : nat) (threshold : Q)
    (l r : node) :
    height_reached depth height_limit = false ->
    (1 < nrows X)%nat ->
    (j < ncols X)%nat ->
    drawn_from (pymin (column X j)) (pymax (column X j)) threshold ->
    grown height_limit (select (goes_left j threshold) X) (depth + 1) l ->
    grown height_limit (select (goes_right j threshold) X) (depth + 1) r ->
    grown height_limit X depth (ITreeNode j threshold l r).

(** The depth of the deepest node of a tree. *)
Fixpoint depth_of (t : node) : nat :=
  match t with
  | ITreeLeaf _ => 0
  | ITreeNode _ _ l r => S (Nat.max (depth_of l) (depth_of r))
  end.

(** Row conservation below a node that [X] reached: every leaf holds the
    count of the rows routed to it, and at every internal node the rows
    sent left and the rows sent right are together the rows that reached
    it, none lost and none twice. *)
Fixpoint conserves (X : list (list Q)) (t : node) : Prop :=
  match t with
  | ITreeLeaf size => size = length X
  | ITreeNode j v l r =>
      let X_left := filter (goes_left j v) X in
      let X_right := filter (goes_right j v) X in
      (length X_left + length X_right = length X)%nat /\
      Permutation (X_left ++ X_right) X /\
      conserves X_left l /\ conserves X_right r
  end.

(** Every feature index of the tree is below [n]. *)
Fixpoint attrs_below (n : nat) (t : node) : Prop :=
  match t with
  | ITreeLeaf _ => True
  | ITreeNode j _ l r => (j < n)%nat /\ attrs_below n l /\ attrs_below n r
  end.

(** Section 4.2: the number of decisions from the root to the leaf that
    the row reaches, and that leaf's size. *)
Fixpoint spec_path (t : node) (x : list Q) : nat * nat :=
  match t with
  | ITreeLeaf size => (0%nat, size)
  | ITreeNode j v l r =>
      let (p, s) := if Qle_bool v (feature j x) then spec_path r x
                    else spec_path l x in
      (S p, s)
  end.

Definition sum_R (l : list R) : R := fold_right Rplus 0%R l.

(** Section 4.5, the summand of one tree: [path_length + c(leaf_size)],
    with [c] the estimator of section 4.3. *)
Definition adjusted_path (x : list Q) (tree : ITree.t) : R :=
  let (p, s) := spec_path (ITree.root tree) x in
  (INR p + c_ref (Z.of_nat s))%R.

(** Section 4.5: [2^(-normalized_length)], where the normalized length is
    the mean of the summands over the trees, divided by [c(psi)], with [c]
    the estimator of section 4.3. *)
Definition spec_score (trees : list ITree.t) (psi : Z) (x : list Q) : R :=
  let mean := (sum_R (map (adjusted_path x) trees) / INR (length trees))%R in
  Rpower 2 (- (mean / c_ref psi)).

(** What line 85 adds for one tree, in closed form: the path length plus
    [_adjustment] of the leaf size, which is an int. *)
Definition computed_summand (x : list Q) (tree : ITree.t) : R :=
  let (p, s) := spec_path (ITree.root tree) x in
  (INR p + _adjustment (PyInt (Z.of_nat s)))%R.

(** What lines 83-87 leave in the entry of one row when both divisions are
    ordinary ones. *)
Definition computed_score (trees : list ITree.t) (psi : pynum) (x : list Q)
    : R :=
  let mean := (sum_R (map (computed_summand x) trees) / INR (length trees))%R in
  Rpower 2 (- (mean / _adjustment psi)).

(** A score in the half-open interval (0, 1]. *)
Definition in_unit (s : xfloat) : Prop :=
  match s with
  | Fin r => (0 < r <= 1)%R
  | _ => False
  end.

(** The outcome and the forest among what [IForest.fit] returns. *)
Definition outcome_of {A B C} (r : A * B * C) : A := fst (fst r).
Definition forest_of {A B C} (r : A * B * C) : B := snd (fst r).

(** The nesting that [_grow] needs at depth [d]: one call per level down
    to the height limit.  A [nan] limit bounds nothing. *)
Definition fuel_suffices (fuel : nat) (d : Z) (h : height) : Prop :=
  match h with
  | Hfin z => (Z.max 0 (z - d) < Z.of_nat fuel)%Z
  | Hneginf => (0 < fuel)%nat
  | Hnan => False
  end.

(** The threshold that [_grow] computes from the draw [u]. *)
Definition split_value_of (X : ndarray) (j : nat) (u : Q) : Q :=
  (pymin (column X j)
   + (pymax (column X j) - pymin (column X j)) * u)%Q.

(* ------------------------------------------------------------------ *)
(** ** A concrete generator

    A linear congruential generator that satisfies the interface; the
    examples below run the model with it. *)

Module Lcg.

Definition modulus : Z := 2147483648.

Definition step (s : Z) : Z := ((1103515245 * s + 12345) mod modulus)%Z.

Definition lcg_seed (z : Z) : Z := (z mod modulus)%Z.

(** The high bits of the state, reduced to [0 .. n-1]. *)
Definition pick (n : nat) (s : Z) : nat :=
  Z.to_nat ((s / 65536) mod Z.max 1 (Z.of_nat n)).

Definition lcg_randint (n : nat) (s : Z) : nat * Z :=
  let s' := step s in (pick n s', s').

Definition lcg_random_sample (s : Z) : Q * Z :=
  let s' := step s in (Qmake s' 2147483648, s').

(** A rotation of [0 .. n-1]. *)
Definition lcg_permutation (n : nat) (s : Z) : list nat * Z :=
  let s' := step s in
  let k := pick n s' in
  (skipn k (seq 0 n) ++ firstn k (seq 0 n), s').

(** The generator meets the documented ranges. *)
#[export] Instance lcg : RandomState Z.
Proof.
  refine {| seed := lcg_seed;
            randint := lcg_randint;
            random_sample := lcg_random_sample;
            permutation := lcg_permutation |}.
  - intros n s Hn. unfold lcg_randint, pick. cbn [fst].
    pose proof (Z.mod_pos_bound (step s / 65536) (Z.max 1 (Z.of_nat n))
                  ltac:(lia)). lia.
  - intros s. unfold lcg_random_sample. cbn [fst].
    pose proof (Z.mod_pos_bound (1103515245 * s + 12345) modulus eq_refl) as H.
    fold (step s) in H. unfold modulus in H.
    unfold Qle, Qlt. cbn. lia.
  - intros n s. unfold lcg_permutation. cbn [fst].
    rewrite Permutation_app_comm, firstn_skipn. apply Permutation_refl.
Defined.

End Lcg.

(** A small data set used by the examples: four points in the plane,
    three of them close together. *)
Definition X4 : ndarray :=
  {| ncols := 2;
     rows := [[1; 2]; [2; 1]; [1; 1]; [100; 100]]%Q |}.

(** Three rows that agree on the only feature. *)
Definition Xconst : ndarray :=
  {| ncols := 1; rows := [[5]; [5]; [5]]%Q |}.


(** Eight points on a line: a second training set of another size. *)
Definition X8 : ndarray :=
  {| ncols := 1;
     rows := [[1]; [2]; [3]; [4]; [5]; [6]; [7]; [8]]%Q |}.

(** Forests over the concrete generator: three trees on the whole sample,
    seeded; and one whose quarter of four rows resolves to [psi = 1]. *)
Definition forest_seeded : IForest.t Z :=
  IForest.init 3 (PyFloat 1) None (IForest.RSSeed 7).

Definition forest_quarter : IForest.t Z :=
  IForest.init 3 (PyFloat (1 # 4)) None (IForest.RSSeed 7).

(* ------------------------------------------------------------------ *)
(** ** Measures on trees and matrices used by further properties *)

(** The sum of the leaf sizes. *)
Fixpoint leaf_total (t : node) : nat :=
  match t with
  | ITreeLeaf size => size
  | ITreeNode _ _ l r => (leaf_total l + leaf_total r)%nat
  end.

(** A numpy array is rectangular: every row has [ncols] entries. *)
Definition rectangular (X : ndarray) : Prop :=
  Forall (fun x => length x = ncols X) (rows X).

(* ------------------------------------------------------------------ *)
(** ** The benchmark's samplers ([datasets/digits.py])

    The benchmark functions call [fit] and [predict] on label-stratified
    samples.  Their sampling code is embedded here; loading the data, the
    metric and the plots are not. *)

Definition sum_Z (l : list Z) : Z := fold_right Z.add 0%Z l.

(** [l[k] += d] and [l[k] = v] on a Python list. *)
Definition add_at (l : list Z) (k : nat) (d : Z) : result (list Z) :=
  match nth_error l k with
  | Some v => Ok (firstn k l ++ (v + d)%Z :: skipn (S k) l)
  | None => Raise IndexError
  end.

Definition set_at (l : list Z) (k : nat) (v : Z) : result (list Z) :=
  match nth_error l k with
  | Some _ => Ok (firstn k l ++ v :: skipn (S k) l)
  | None => Raise IndexError
  end.

(** The loop of lines 145-148 (and 154-157): [for i_ in range(r)], where
    [steps] iterations remain and [i_] is the current one. *)
Fixpoint spread (i i_ steps : nat) (select : list Z) : result (list Z) :=
  match steps with
  | O => Ok select
  | S steps' =>
      rbind (if (i =? i_)%nat
             then add_at select (length select - 1) 1     (* select[-1] += 1 *)
             else Ok select) (fun select =>
        rbind (add_at select i_ 1) (fun select =>
          spread i (S i_) steps' select))
  end.

(** Lines 144-150 of [benchmark_digits] (and 153-159 for the test set):
    the number of samples to take from each of the ten digit classes when
    digit [i] is the anomaly.  [n_normal / 9] is the floor division of two
    ints. *)
Definition stratified_select (n_normal n_anomaly : Z) (i : nat)
  : result (list Z) :=
  let select := repeat (n_normal / 9)%Z 10 in
  rbind (spread i 0 (Z.to_nat (n_normal mod 9)) select) (fun select =>
    set_at select i n_anomaly).

(** [RandomState.choice(a, size, replace)] is numpy's; it is taken as an
    interface with what numpy documents: [size] entries of [a], at
    distinct positions when [replace] is false, which needs
    [size <= len(a)].  An int [a] stands for [range(a)].  What happens on
    an empty [a] differs between numpy versions and is left open. *)
Class RandomChoice (G : Type) : Type := {
  choice : list nat -> nat -> bool -> M G (list nat);
  choice_length :
    forall a k r g res g', choice a k r g = (Ok res, g') -> length res = k;
  choice_members :
    forall a k r g res g', choice a k r g = (Ok res, g') -> incl res a;
  choice_distinct :
    forall a k g res g',
      choice a k false g = (Ok res, g') ->
      exists rest, Permutation (res ++ rest) a;
  choice_defined :
    forall a k r g,
      a <> [] -> r = true \/ (k <= length a)%nat ->
      exists res g', choice a k r g = (Ok res, g')
}.

Section Samplers.
Context {G : Type} {RC : RandomChoice G}.
Context {A : Type} (eqb : A -> A -> bool).

(** The entry [y[i] == class_] of the mask. *)
Definition has_label (y : list A) (class_ : A) (i : nat) : bool :=
  match nth_error y i with
  | Some v => eqb v class_
  | None => false
  end.

(** [np.where(y == class_)[0]] *)
Definition np_where_eq (y : list A) (class_ : A) : list nat :=
  filter (has_label y class_) (seq 0 (length y)).

(** [choice] with a Python int as size: numpy refuses a negative one. *)
Definition py_choice (a : list nat) (size : Z) (replace : bool)
  : M G (list nat) :=
  if (size <? 0)%Z then raise ValueError
  else choice a (Z.to_nat size) replace.

(** The loop of [get_subsample_indices], lines 63-65, over
    [zip(select, classes)]. *)
Fixpoint choose_per_class (pairs : list (Z * A)) (y : list A)
    (replace : bool) : M G (list (list nat)) :=
  match pairs with
  | [] => ret []
  | (num_to_select, class_) :: rest =>
      picked <- py_choice (np_where_eq y class_) num_to_select replace ;;
      others <- choose_per_class rest y replace ;;
      ret (picked :: others)
  end.

(** [np.concatenate]: it refuses an empty list of arrays. *)
Definition np_concatenate (parts : list (list nat)) : M G (list nat) :=
  match parts with
  | [] => raise ValueError
  | _ => ret (concat parts)
  end.

(** [get_subsample_indices], lines 49-72, from line 61 on: the generator
    threaded here is the one [check_random_state] returned. *)
Definition get_subsample_indices (classes : list A) (y : list A)
    (select : list Z) (replace : bool) : M G (list nat) :=
  parts <- choose_per_class (combine select classes) y replace ;;
  result <- np_concatenate parts ;;
  let n := length result in
  order <- choice (seq 0 n) n false ;;
  ret (map (fun p => nth p result 0%nat) order).

End Samplers.

(** How many of the indices [ind] carry the label [class_] in [y]. *)
Definition count_class {A : Type} (eqb : A -> A -> bool) (y : list A)
    (class_ : A) (ind : list nat) : nat :=
  length (filter (has_label eqb y class_) ind).

(** [sum(y)] of a boolean array. *)
Definition count_true (y : list bool) : nat := length (filter (fun b => b) y).

Section DrawLabels.
Context {G : Type} {RC : RandomChoice G}.

(** One sample of the benchmark, with its labels [bin_y[ind]]:
    lines 134-138 when one digit is the normal class ([classes] is
    [[True, False]], [select] is [[n_anomaly, n_normal]]). *)
Definition sample_one_normal (all_y : list Z) (i : nat)
    (n_normal n_anomaly : Z) : M G (list bool) :=
  let bin_y := map (fun v => negb (v =? Z.of_nat i)%Z) all_y in
  ind <- get_subsample_indices Bool.eqb [true; false] bin_y
           [n_anomaly; n_normal] false ;;
  ret (map (fun k => nth k bin_y false) ind).

(** The same with digit [i] as the anomaly, lines 141-163: ten classes,
    stratified counts. *)
Definition sample_one_anomaly (all_y : list Z) (i : nat)
    (n_normal n_anomaly : Z) : M G (list bool) :=
  fun g =>
    match stratified_select n_normal n_anomaly i with
    | Raise e => (Raise e, g)
    | Ok select =>
        (ind <- get_subsample_indices Z.eqb (map Z.of_nat (seq 0 10)) all_y
                  select false ;;
         let bin_y := map (fun v => (v =? Z.of_nat i)%Z) all_y in
         ret (map (fun k => nth k bin_y false) ind)) g
    end.

(** Lines 132-168 of [benchmark_digits] for one digit [i]: the training
    labels, then the test labels, drawn from one generator. *)
Definition draw_labels (single_digit_as_normal : bool) (all_y : list Z)
    (i : nat) (n_train_normal n_train_anomaly n_test_normal n_test_anomaly : Z)
  : M G (list bool * list bool) :=
  let sample := if single_digit_as_normal then sample_one_normal
                else sample_one_anomaly in
  y_train <- sample all_y i n_train_normal n_train_anomaly ;;
  y_test <- sample all_y i n_test_normal n_test_anomaly ;;
  ret (y_train, y_test).

End DrawLabels.

(** [choice] on the concrete generator: a rotation of [a] cut to [size]
    entries, or one entry repeated when [replace] is set. *)
Module LcgChoice.

Definition rotate (j : nat) (a : list nat) : list nat :=
  skipn j a ++ firstn j a.

Definition lcg_choice (a : list nat) (k : nat) (replace : bool)
  : M Z (list nat) :=
  fun s =>
    if (length a =? 0)%nat then (Raise ValueError, s)
    else
      let s' := Lcg.step s in
      let j := Lcg.pick (length a) s' in
      if replace then (Ok (repeat (nth j a 0%nat) k), s')
      else if (k <=? length a)%nat then (Ok (firstn k (rotate j a)), s')
      else (Raise ValueError, s).

#[export] Instance lcg_rc : RandomChoice Z.
Proof.
  assert (forall j a, Permutation (rotate j a) a) as Hrot.
  { intros j a. unfold rotate.
    rewrite Permutation_app_comm, firstn_skipn. apply Permutation_refl. }
  assert (forall (a : list nat) s, length a <> 0%nat ->
            (Lcg.pick (length a) (Lcg.step s) < length a)%nat) as Hpick.
  { intros a s Ha. unfold Lcg.pick.
    pose proof (Z.mod_pos_bound (Lcg.step s / 65536)
                  (Z.max 1 (Z.of_nat (length a))) ltac:(lia)). lia. }
  refine {| choice := lcg_choice |}.
  - intros a k r s res s' E. unfold lcg_choice in E.
    destruct (Nat.eqb_spec (length a) 0) as [Ha | Ha]; [discriminate|].
    destruct r.
    + injection E as <- _. apply repeat_length.
    + destruct (Nat.leb_spec k (length a)) as [L | L]; [|discriminate].
      injection E as <- _. rewrite length_firstn.
      rewrite (Permutation_length (Hrot _ a)). lia.
  - intros a k r s res s' E. unfold lcg_choice in E.
    destruct (Nat.eqb_spec (length a) 0) as [Ha | Ha]; [discriminate|].
    destruct r.
    + injection E as <- _. intros x Hx. apply repeat_spec in Hx. subst x.
      apply nth_In. now apply Hpick.
    + destruct (k <=? length a)%nat; [|discriminate].
      injection E as <- _. intros x Hx.
      apply (Permutation_in x (Hrot (Lcg.pick (length a) (Lcg.step s)) a)).
      rewrite <- (firstn_skipn k). apply in_or_app. now left.
  - intros a k s res s' E. unfold lcg_choice in E.
    destruct (Nat.eqb_spec (length a) 0) as [Ha | Ha]; [discriminate|].
    destruct (k <=? length a)%nat; [|discriminate].
    injection E as <- _.
    exists (skipn k (rotate (Lcg.pick (length a) (Lcg.step s)) a)).
    rewrite firstn_skipn. apply Hrot.
  - intros a k r s Ha Hr. unfold lcg_choice.
    destruct (Nat.eqb_spec (length a) 0) as [H0 | H0].
    { destruct a; [congruence | discriminate]. }
    destruct r; [eauto|].
    destruct Hr as [Hr | Hr]; [discriminate|].
    apply Nat.leb_le in Hr. rewrite Hr. eauto.
Defined.

End LcgChoice.

(** Labels of a small data set: digits 0, 1 and 2, four of each. *)
Definition labels12 : list Z := [0; 1; 2; 0; 1; 2; 0; 1; 2; 0; 1; 2]%Z.

(** Ten digits, three samples of each. *)
Definition labels30 : list Z :=
  map (fun k => Z.of_nat (k mod 10)) (seq 0 30).

(* ================================================================== *)
(** * Properties *)

(* ------------------------------------------------------------------ *)
(** ** The model at work *)

(** Four points, height limit 2: the far point leaves at the first split. *)
Example grow_X4 :
  ITree._grow (RS := Lcg.lcg) 10 X4 0 (Hfin 2) 7%Z
  = (Ok (ITreeNode 0 (65771450615 # 2147483648)
           (ITreeNode 0 (3633485219 # 2147483648) (ITreeLeaf 2) (ITreeLeaf 1))
           (ITreeLeaf 1)),
     1486001571%Z).
Proof. vm_compute. reflexivity. Qed.

(** A constant feature: each level splits nothing off, down to the
    height limit. *)
Example grow_Xconst :
  ITree._grow (RS := Lcg.lcg) 10 Xconst 0 (Hfin 2) 7%Z
  = (Ok (ITreeNode 0 (10737418240 # 2147483648) (ITreeLeaf 0)
           (ITreeNode 0 (10737418240 # 2147483648) (ITreeLeaf 0)
              (ITreeLeaf 3))),
     1486001571%Z).
Proof. vm_compute. reflexivity. Qed.

(** Under a [nan] height limit the same data never stops splitting. *)
Example grow_Xconst_nan :
  fst (ITree._grow (RS := Lcg.lcg) 50 Xconst 0 Hnan 7%Z) = Raise RecursionError.
Proof. vm_compute. reflexivity. Qed.

(** A negative height limit, or [-inf], gives a single leaf. *)
Example grow_negative_limit :
  ITree._grow (RS := Lcg.lcg) 5 X4 0 (Hfin (-1)) 7%Z = (Ok (ITreeLeaf 4), 7%Z) /\
  ITree._grow (RS := Lcg.lcg) 5 X4 0 Hneginf 7%Z = (Ok (ITreeLeaf 4), 7%Z).
Proof. split; vm_compute; reflexivity. Qed.

(** No column to choose from. *)
Example grow_no_feature :
  ITree._grow (RS := Lcg.lcg) 5 (mk_ndarray 0 [[]; []]) 0 (Hfin 3) 7%Z
  = (Raise ValueError, 7%Z).
Proof. vm_compute. reflexivity. Qed.

(** A query row that lacks the feature the root asks for. *)
Example query_short_row :
  let tree := ITree.mk (Hfin 2)
                (ITreeNode 1 (3 # 2) (ITreeLeaf 1) (ITreeLeaf 2)) in
  ITree.path_length_and_leaf_size tree [1%Q] = Raise IndexError /\
  ITree.path_length_and_leaf_size tree [1%Q; 2%Q] = Ok (1%nat, 2%nat).
Proof. split; vm_compute; reflexivity. Qed.

(** A float subsample size above 1 is not a slice bound; the height limit
    derived from it has been stored by then. *)
Example fit_float_psi :
  IForest.fit (RS := Lcg.lcg) 100
    (IForest.init 3 (PyFloat (5 # 2)) None (IForest.RSSeed 7)) X4 0%Z
  = (Raise TypeError,
     IForest.mk 3 (PyFloat (5 # 2)) [] (Some (Hfin 2)) (IForest.RSSeed 7) None,
     0%Z).
Proof. vm_compute. reflexivity. Qed.

(** [predict] before any [fit]. *)
Example predict_before_fit :
  IForest.predict forest_seeded X4 = Raise AttributeError.
Proof. vm_compute. reflexivity. Qed.

Example np_ceil_log2_values :
  np_ceil_log2 (PyInt 1) = Hfin 0 /\ np_ceil_log2 (PyInt 8) = Hfin 3 /\
  np_ceil_log2 (PyInt 9) = Hfin 4 /\ np_ceil_log2 (PyFloat (5 # 2)) = Hfin 2 /\
  np_ceil_log2 (PyInt 0) = Hneginf /\ np_ceil_log2 (PyInt (-3)) = Hnan.
Proof. repeat split; vm_compute; reflexivity. Qed.

(* ------------------------------------------------------------------ *)
(** ** Comparisons of Python numbers *)

Lemma Qlt_bool_iff (x y : Q) : Qlt_bool x y = true <-> (x < y)%Q.
Proof.
  unfold Qlt_bool. rewrite negb_true_iff. split.
  - intros H. apply Qnot_le_lt. intros L.
    apply Qle_bool_iff in L. congruence.
  - intros H. destruct (Qle_bool y x) eqn:E; [|reflexivity].
    apply Qle_bool_iff in E. exfalso. exact (Qlt_not_le _ _ H E).
Qed.

Lemma Qlt_bool_false_iff (x y : Q) : Qlt_bool x y = false <-> (y <= x)%Q.
Proof.
  unfold Qlt_bool. rewrite negb_false_iff. apply Qle_bool_iff.
Qed.

Lemma Qle_bool_false_iff (x y : Q) : Qle_bool x y = false <-> (y < x)%Q.
Proof.
  rewrite <- Qlt_bool_iff. unfold Qlt_bool.
  now rewrite negb_true_iff.
Qed.

Lemma Qle_bool_inject_Z (z k : Z) :
  Qle_bool (inject_Z z) (inject_Z k) = (z <=? k)%Z.
Proof. unfold Qle_bool. cbn. now rewrite !Z.mul_1_r. Qed.

Lemma Qeq_bool_inject_Z (z k : Z) :
  Qeq_bool (inject_Z z) (inject_Z k) = (z =? k)%Z.
Proof. unfold Qeq_bool. cbn. now rewrite !Z.mul_1_r. Qed.

Lemma Q2R_inject_Z (z : Z) : Q2R (inject_Z z) = IZR z.
Proof. unfold Q2R. cbn. lra. Qed.

Lemma toR_toQ (n : pynum) : toR n = Q2R (toQ n).
Proof. destruct n; cbn; [now rewrite Q2R_inject_Z | reflexivity]. Qed.

(* ------------------------------------------------------------------ *)
(** ** The estimator *)

Lemma adjustment_le_1 (n : pynum) :
  (toQ n <= 1)%Q -> _adjustment n = 0%R.
Proof.
  intros H. unfold _adjustment.
  apply Qle_bool_iff in H. now rewrite H.
Qed.

Lemma adjustment_int_2 : _adjustment (PyInt 2) = 1%R.
Proof. reflexivity. Qed.

(** On an int [n >= 3] the floor division leaves 1. *)
Lemma floor_two_nm1_over_n (z : Z) :
  (3 <= z)%Z -> (2 * (z - 1) / z = 1)%Z.
Proof.
  intros H. symmetry. apply (Z.div_unique _ _ 1 (z - 2)); lia.
Qed.

Lemma adjustment_int_ge_3 (z : Z) :
  (3 <= z)%Z ->
  _adjustment (PyInt z) = (2 * (ln (IZR z - 1) + euler_gamma) - 1)%R.
Proof.
  intros H. unfold _adjustment. cbn [toQ toR two_nm1_over_n].
  change 1%Q with (inject_Z 1). change 2%Q with (inject_Z 2).
  rewrite Qle_bool_inject_Z, Qeq_bool_inject_Z.
  destruct (Z.leb_spec z 1); [lia|].
  destruct (Z.eqb_spec z 2); [lia|].
  now rewrite floor_two_nm1_over_n.
Qed.

(** Up to 2 the code and the reference agree. *)
Lemma adjustment_int_le_2 (z : Z) :
  (z <= 2)%Z -> _adjustment (PyInt z) = c_ref z.
Proof.
  intros H. unfold _adjustment, c_ref. cbn [toQ].
  change 1%Q with (inject_Z 1). change 2%Q with (inject_Z 2).
  rewrite Qle_bool_inject_Z, Qeq_bool_inject_Z.
  destruct (Z.leb_spec z 1); [reflexivity|].
  destruct (Z.eqb_spec z 2); [reflexivity|lia].
Qed.

(** From 3 on the code is above the reference by [(n-2)/n]. *)
Lemma adjustment_int_vs_ref (z : Z) :
  (3 <= z)%Z ->
  _adjustment (PyInt z) = (c_ref z + (IZR z - 2) / IZR z)%R.
Proof.
  intros H. rewrite adjustment_int_ge_3 by assumption.
  unfold c_ref.
  destruct (Z.leb_spec z 1); [lia|].
  destruct (Z.eqb_spec z 2); [lia|].
  assert (3 <= IZR z)%R by (apply IZR_le in H; exact H).
  field. lra.
Qed.

(** On a float the quotient is the real one: the reference formula. *)
Lemma adjustment_float (q : Q) :
  (1 < q)%Q -> ~ (q == 2)%Q ->
  _adjustment (PyFloat q)
  = (2 * (ln (Q2R q - 1) + euler_gamma) - 2 * (Q2R q - 1) / Q2R q)%R.
Proof.
  intros H1 H2. unfold _adjustment. cbn [toQ toR two_nm1_over_n].
  apply Qle_bool_false_iff in H1. rewrite H1.
  destruct (Qeq_bool q 2) eqn:E; [|reflexivity].
  apply Qeq_bool_iff in E. contradiction.
Qed.

(** So the same count passed as a float gets the reference value. *)
Lemma adjustment_float_matches_ref (z : Z) :
  _adjustment (PyFloat (inject_Z z)) = c_ref z.
Proof.
  unfold _adjustment, c_ref. cbn [toQ toR two_nm1_over_n].
  change 1%Q with (inject_Z 1). change 2%Q with (inject_Z 2).
  rewrite Qle_bool_inject_Z, Qeq_bool_inject_Z.
  destruct (z <=? 1)%Z; [reflexivity|].
  destruct (z =? 2)%Z; [reflexivity|].
  now rewrite Q2R_inject_Z.
Qed.

(** C2 (evaluation at the failing input).  At [n = 3] the code returns
    [2(ln 2 + gamma) - 1], one third above the reference value
    [2(ln 2 + gamma) - 4/3]: on ints, [2*(n-1) / n] is a floor division. *)
Theorem adjustment_departs_from_reference :
  _adjustment (PyInt 3) = (2 * (ln 2 + euler_gamma) - 1)%R /\
  c_ref 3 = (2 * (ln 2 + euler_gamma) - 4 / 3)%R /\
  _adjustment (PyInt 3) <> c_ref 3.
Proof.
  assert (A : _adjustment (PyInt 3) = (2 * (ln 2 + euler_gamma) - 1)%R).
  { rewrite adjustment_int_ge_3 by lia.
    replace (3 - 1)%R with 2%R by lra. reflexivity. }
  assert (B : c_ref 3 = (2 * (ln 2 + euler_gamma) - 4 / 3)%R).
  { unfold c_ref. cbn [Z.leb Z.eqb Z.compare Pos.compare Pos.compare_cont Pos.eqb].
    replace (3 - 1)%R with 2%R by lra. lra. }
  repeat split; [exact A | exact B |].
  rewrite A, B. lra.
Qed.

Lemma ln_nonneg (x : R) : (1 <= x)%R -> (0 <= ln x)%R.
Proof.
  intros H. destruct H as [H | <-].
  - left. rewrite <- ln_1. apply ln_increasing; lra.
  - rewrite ln_1. lra.
Qed.

(** [ln x >= 1 - 1/x], from [1 + t <= exp t] at [t = ln (1/x)]. *)
Lemma ln_lower_bound (x : R) : (0 < x)%R -> (1 - / x <= ln x)%R.
Proof.
  intros H.
  pose proof (exp_ineq1_le (ln (/ x))) as E.
  rewrite exp_ln in E by (apply Rinv_0_lt_compat; exact H).
  rewrite ln_Rinv in E by exact H. lra.
Qed.

Lemma euler_gamma_bounds : (0.57 < euler_gamma < 0.58)%R.
Proof. unfold euler_gamma. lra. Qed.

(** A leaf size is a row count: its adjustment is never negative. *)
Lemma adjustment_nat_nonneg (n : nat) :
  (0 <= _adjustment (PyInt (Z.of_nat n)))%R.
Proof.
  destruct (Z_le_gt_dec (Z.of_nat n) 2) as [L | L].
  - rewrite adjustment_int_le_2 by exact L. unfold c_ref.
    destruct (Z.leb_spec (Z.of_nat n) 1); [lra|].
    destruct (Z.eqb_spec (Z.of_nat n) 2); [lra|lia].
  - rewrite adjustment_int_ge_3 by lia.
    assert (3 <= IZR (Z.of_nat n))%R by (apply IZR_le; lia).
    pose proof (ln_nonneg (IZR (Z.of_nat n) - 1) ltac:(lra)).
    pose proof euler_gamma_bounds. lra.
Qed.

(** From [psi = 2] on, the normalising constant is positive. *)
Lemma adjustment_pos (p : pynum) :
  (2 <= toQ p)%Q -> (0 < _adjustment p)%R.
Proof.
  intros H. destruct p as [z | q]; cbn [toQ] in H.
  - assert (2 <= z)%Z as Hz.
    { change 2%Q with (inject_Z 2) in H. now rewrite Zle_Qle. }
    destruct (Z.eq_dec z 2) as [-> | N].
    + rewrite adjustment_int_2. lra.
    + rewrite adjustment_int_ge_3 by lia.
      assert (3 <= IZR z)%R by (apply IZR_le; lia).
      pose proof (ln_nonneg (IZR z - 1) ltac:(lra)).
      pose proof euler_gamma_bounds. lra.
  - destruct (Qeq_bool q 2) eqn:E.
    + unfold _adjustment. cbn [toQ]. rewrite E.
      assert (Qle_bool q 1 = false) as ->.
      { apply Qle_bool_false_iff. eapply Qlt_le_trans; [|exact H]. reflexivity. }
      lra.
    + assert (~ (q == 2)%Q) as N by (now apply Qeq_bool_neq).
      assert (2 < q)%Q as Hq.
      { apply Qle_lt_or_eq in H. destruct H as [H | H]; [exact H|].
        exfalso. apply N. now symmetry. }
      rewrite adjustment_float; [| eapply Qlt_trans; [|exact Hq]; reflexivity | exact N].
      apply Qlt_Rlt in Hq. replace (Q2R 2) with 2%R in Hq by (unfold Q2R; cbn; lra).
      set (x := Q2R q) in *.
      pose proof (ln_lower_bound (x - 1) ltac:(lra)) as L.
      pose proof euler_gamma_bounds as [G1 G2].
      assert (0 < x - 1)%R by lra.
      assert (/ (x - 1) < 1)%R.
      { rewrite <- Rinv_1. apply Rinv_lt_contravar; lra. }
      assert (2 * (x - 1) / x = 2 - 2 * / x)%R as -> by (field; lra).
      assert (0 < / x)%R by (apply Rinv_0_lt_compat; lra).
      (* 2 ln(x-1) + 2/x >= 2 - 2/(x-1) + 2/x, and the right side is
         at least 1 for x > 2 *)
      assert (1 <= 2 - 2 * / (x - 1) + 2 * / x)%R.
      { assert ((2 - 2 * / (x - 1) + 2 * / x) - 1
                = (x - 2) * (x + 1) * / (x * (x - 1)))%R as Eq by (field; lra).
        assert (0 <= (x - 2) * (x + 1) * / (x * (x - 1)))%R.
        { apply Rmult_le_pos; [nra|]. left. apply Rinv_0_lt_compat. nra. }
        lra. }
      lra.
Qed.

(* ------------------------------------------------------------------ *)
(** ** Minimum, maximum and the two masks *)

Lemma fold_min_spec (xs : list Q) (acc : Q) :
  let m := fold_left (fun acc y => if Qlt_bool y acc then y else acc) xs acc in
  (m <= acc)%Q /\ (forall y, In y xs -> (m <= y)%Q) /\ (m = acc \/ In m xs).
Proof.
  revert acc. induction xs as [| x xs IH]; intros acc; cbn.
  - repeat split; [apply Qle_refl | contradiction | now left].
  - destruct (Qlt_bool x acc) eqn:E.
    + destruct (IH x) as (A & B & C). apply Qlt_bool_iff in E.
      repeat split.
      * eapply Qle_trans; [exact A|]. now apply Qlt_le_weak.
      * intros y [<- | Hy]; [exact A | now apply B].
      * right. destruct C as [C | C]; [left; now rewrite C | now right].
    + destruct (IH acc) as (A & B & C). apply Qlt_bool_false_iff in E.
      repeat split.
      * exact A.
      * intros y [<- | Hy]; [eapply Qle_trans; eassumption | now apply B].
      * destruct C as [C | C]; [now left | right; now right].
Qed.

Lemma fold_max_spec (xs : list Q) (acc : Q) :
  let m := fold_left (fun acc y => if Qlt_bool acc y then y else acc) xs acc in
  (acc <= m)%Q /\ (forall y, In y xs -> (y <= m)%Q) /\ (m = acc \/ In m xs).
Proof.
  revert acc. induction xs as [| x xs IH]; intros acc; cbn.
  - repeat split; [apply Qle_refl | contradiction | now left].
  - destruct (Qlt_bool acc x) eqn:E.
    + destruct (IH x) as (A & B & C). apply Qlt_bool_iff in E.
      repeat split.
      * eapply Qle_trans; [|exact A]. now apply Qlt_le_weak.
      * intros y [<- | Hy]; [exact A | now apply B].
      * right. destruct C as [C | C]; [left; now rewrite C | now right].
    + destruct (IH acc) as (A & B & C). apply Qlt_bool_false_iff in E.
      repeat split.
      * exact A.
      * intros y [<- | Hy]; [eapply Qle_trans; eassumption | now apply B].
      * destruct C as [C | C]; [now left | right; now right].
Qed.

Lemma pymin_le (l : list Q) (y : Q) : In y l -> (pymin l <= y)%Q.
Proof.
  destruct l as [| x xs]; [contradiction|]. cbn [pymin].
  destruct (fold_min_spec xs x) as (A & B & _).
  intros [<- | H]; [exact A | now apply B].
Qed.

Lemma pymax_ge (l : list Q) (y : Q) : In y l -> (y <= pymax l)%Q.
Proof.
  destruct l as [| x xs]; [contradiction|]. cbn [pymax].
  destruct (fold_max_spec xs x) as (A & B & _).
  intros [<- | H]; [exact A | now apply B].
Qed.

Lemma pymin_In (l : list Q) : l <> [] -> In (pymin l) l.
Proof.
  destruct l as [| x xs]; [congruence|]. intros _. cbn [pymin].
  destruct (fold_min_spec xs x) as (_ & _ & [C | C]);
    [left; now rewrite C | now right].
Qed.

Lemma pymax_In (l : list Q) : l <> [] -> In (pymax l) l.
Proof.
  destruct l as [| x xs]; [congruence|]. intros _. cbn [pymax].
  destruct (fold_max_spec xs x) as (_ & _ & [C | C]);
    [left; now rewrite C | now right].
Qed.

Lemma pymin_le_pymax (l : list Q) : l <> [] -> (pymin l <= pymax l)%Q.
Proof.
  intros H. apply pymax_ge. now apply pymin_In.
Qed.

(** The two masks are complementary: no row fails both or passes both. *)
Lemma goes_left_right (j : nat) (v : Q) (x : list Q) :
  goes_left j v x = negb (goes_right j v x).
Proof. reflexivity. Qed.

Lemma filter_partition_length {A} (p q : A -> bool) (l : list A) :
  (forall x, p x = negb (q x)) ->
  (length (filter p l) + length (filter q l) = length l)%nat.
Proof.
  intros H. induction l as [| x l IH]; [reflexivity|].
  cbn. rewrite H. destruct (q x); cbn; lia.
Qed.

Lemma filter_partition_perm {A} (p q : A -> bool) (l : list A) :
  (forall x, p x = negb (q x)) ->
  Permutation (filter p l ++ filter q l) l.
Proof.
  intros H. induction l as [| x l IH]; [constructor|].
  cbn. rewrite H. destruct (q x); cbn.
  - symmetry. apply Permutation_cons_app. now symmetry.
  - now constructor.
Qed.

Lemma filter_all {A} (p : A -> bool) (l : list A) :
  (forall x, In x l -> p x = true) -> filter p l = l.
Proof.
  induction l as [| x l IH]; intros H; [reflexivity|].
  cbn. rewrite H by now left. f_equal. apply IH. intros y Hy. apply H. now right.
Qed.

Lemma filter_none {A} (p : A -> bool) (l : list A) :
  (forall x, In x l -> p x = false) -> filter p l = [].
Proof.
  induction l as [| x l IH]; intros H; [reflexivity|].
  cbn. rewrite H by now left. apply IH. intros y Hy. apply H. now right.
Qed.

(** The computed threshold lies in [a, b) when [a < b]. *)
Lemma threshold_in_range (a b u : Q) :
  (a <= b)%Q -> (0 <= u)%Q -> (u < 1)%Q ->
  drawn_from a b (a + (b - a) * u)%Q.
Proof.
  intros Hab H0 H1. unfold drawn_from. split; [nra|].
  destruct (Qlt_le_dec a b) as [L | L].
  - left. nra.
  - right. assert (a == b)%Q as Eq by (now apply Qle_antisym).
    split; [exact Eq | nra].
Qed.

(* ------------------------------------------------------------------ *)
(** ** One call of [_grow] *)

Section GrowFacts.
Context {G : Type} {RS : RandomState G}.

Lemma grow_out_of_fuel (X : ndarray) (d : Z) (h : height) (g : G) :
  ITree._grow 0 X d h g = (Raise RecursionError, g).
Proof. reflexivity. Qed.

Lemma grow_leaf (fuel : nat) (X : ndarray) (d : Z) (h : height) (g : G) :
  height_reached d h = true \/ (nrows X <= 1)%nat ->
  ITree._grow (S fuel) X d h g = (Ok (ITreeLeaf (nrows X)), g).
Proof.
  intros H. cbn [ITree._grow].
  assert (height_reached d h || (nrows X <=? 1)%nat = true) as ->; [|reflexivity].
  apply orb_true_iff. destruct H as [H | H]; [now left | right].
  now apply Nat.leb_le.
Qed.

Lemma grow_no_columns (fuel : nat) (X : ndarray) (d : Z) (h : height) (g : G) :
  height_reached d h = false -> (1 < nrows X)%nat -> ncols X = 0%nat ->
  ITree._grow (S fuel) X d h g = (Raise ValueError, g).
Proof.
  intros H1 H2 H3. cbn [ITree._grow]. rewrite H1.
  assert ((nrows X <=? 1)%nat = false) as -> by (apply Nat.leb_gt; lia).
  cbn [orb]. unfold bind, ITree.py_randint. now rewrite H3.
Qed.

Lemma grow_split (fuel : nat) (X : ndarray) (d : Z) (h : height) (g : G) :
  height_reached d h = false -> (1 < nrows X)%nat -> (0 < ncols X)%nat ->
  ITree._grow (S fuel) X d h g =
    let (j, g1) := randint (ncols X) g in
    let (u, g2) := random_sample g1 in
    let v := split_value_of X j u in
    match ITree._grow fuel (select (goes_left j v) X) (d + 1) h g2 with
    | (Ok l, g3) =>
        match ITree._grow fuel (select (goes_right j v) X) (d + 1) h g3 with
        | (Ok r, g4) => (Ok (ITreeNode j v l r), g4)
        | (Raise e, g4) => (Raise e, g4)
        end
    | (Raise e, g3) => (Raise e, g3)
    end.
Proof.
  intros H1 H2 H3. cbn [ITree._grow]. rewrite H1.
  assert ((nrows X <=? 1)%nat = false) as -> by (apply Nat.leb_gt; lia).
  cbn [orb]. unfold bind at 1, ITree.py_randint.
  assert ((ncols X =? 0)%nat = false) as -> by (apply Nat.eqb_neq; lia).
  unfold draw at 1. destruct (randint (ncols X) g) as [j g1].
  unfold bind at 1, draw. destruct (random_sample g1) as [u g2].
  unfold bind, ret, split_value_of.
  destruct (ITree._grow fuel _ (d + 1) h g2) as [[l | e] g3]; [|reflexivity].
  destruct (ITree._grow fuel _ (d + 1) h g3) as [[r | e] g4]; reflexivity.
Qed.

(** What a successful call has done. *)
Lemma grow_inv (fuel : nat) (X : ndarray) (d : Z) (h : height) (g g' : G)
    (t : node) :
  ITree._grow fuel X d h g = (Ok t, g') ->
  exists fuel', fuel = S fuel' /\
  ((( height_reached d h = true \/ (nrows X <= 1)%nat) /\
    t = ITreeLeaf (nrows X) /\ g' = g)
   \/
   (height_reached d h = false /\ (1 < nrows X)%nat /\ (0 < ncols X)%nat /\
    exists j g1 u g2 l g3 r,
      randint (ncols X) g = (j, g1) /\
      random_sample g1 = (u, g2) /\
      ITree._grow fuel' (select (goes_left j (split_value_of X j u)) X)
                  (d + 1) h g2 = (Ok l, g3) /\
      ITree._grow fuel' (select (goes_right j (split_value_of X j u)) X)
                  (d + 1) h g3 = (Ok r, g') /\
      t = ITreeNode j (split_value_of X j u) l r)).
Proof.
  destruct fuel as [| fuel']; [rewrite grow_out_of_fuel; discriminate|].
  intros E. exists fuel'. split; [reflexivity|].
  destruct (height_reached d h) eqn:Hh.
  { left. rewrite grow_leaf in E by now left.
    injection E as <- <-. auto. }
  destruct (Nat.leb_spec (nrows X) 1) as [Hm | Hm].
  { left. rewrite grow_leaf in E by now right.
    injection E as <- <-. auto. }
  destruct (Nat.eq_dec (ncols X) 0) as [Hn | Hn].
  { rewrite grow_no_columns in E by assumption. discriminate. }
  right. rewrite grow_split in E by (assumption || lia).
  destruct (randint (ncols X) g) as [j g1] eqn:Ej.
  destruct (random_sample g1) as [u g2] eqn:Eu.
  cbv zeta in E.
  destruct (ITree._grow fuel' _ (d + 1) h g2) as [[l | e] g3] eqn:El;
    [|discriminate].
  destruct (ITree._grow fuel' _ (d + 1) h g3) as [[r | e] g4] eqn:Er;
    [|discriminate].
  injection E as <- <-.
  split; [reflexivity|]. split; [lia|]. split; [lia|].
  exists j, g1, u, g2, l, g3, r. auto.
Qed.

End GrowFacts.

(* ------------------------------------------------------------------ *)
(** ** The grown tree *)

Section TreeFacts.
Context {G : Type} {RS : RandomState G}.

Lemma select_ncols (p : list Q -> bool) (X : ndarray) :
  ncols (select p X) = ncols X.
Proof. reflexivity. Qed.

Lemma column_nonempty (X : ndarray) (j : nat) :
  (1 < nrows X)%nat -> column X j <> [].
Proof.
  unfold nrows, column. destruct (rows X); cbn; [lia | discriminate].
Qed.

(** Whatever [_grow] returns is a tree of the specification. *)
Lemma grow_sound (fuel : nat) :
  forall (X : ndarray) (d : Z) (h : height) (g g' : G) (t : node),
  ITree._grow fuel X d h g = (Ok t, g') -> grown h X d t.
Proof.
  induction fuel as [| fuel IH]; intros X d h g g' t E.
  - rewrite grow_out_of_fuel in E. discriminate.
  - apply grow_inv in E. destruct E as (fuel' & Ef & E).
    injection Ef as <-.
    destruct E as [(Hl & -> & _) | (Hh & Hm & Hn & E)].
    + now apply grown_leaf.
    + destruct E as (j & g1 & u & g2 & l & g3 & r & Ej & Eu & El & Er & ->).
      pose proof (randint_range (ncols X) g Hn) as Hj.
      rewrite Ej in Hj. cbn [fst] in Hj.
      pose proof (random_sample_range g1) as [U0 U1].
      rewrite Eu in U0, U1. cbn [fst] in U0, U1.
      apply grown_split; try assumption.
      * unfold split_value_of. apply threshold_in_range; try assumption.
        apply pymin_le_pymax. now apply column_nonempty.
      * eapply IH; eassumption.
      * eapply IH; eassumption.
Qed.

(** With a finite (or [-inf]) height limit and a column to choose from,
    [_grow] returns a tree as soon as the nesting allows one call per
    level. *)
Lemma grow_total (fuel : nat) :
  forall (X : ndarray) (d : Z) (h : height) (g : G),
  (0 < ncols X)%nat -> fuel_suffices fuel d h ->
  exists t g', ITree._grow fuel X d h g = (Ok t, g').
Proof.
  induction fuel as [| fuel IH]; intros X d h g Hn Hf.
  - destruct h; cbn in Hf; [lia | lia | contradiction].
  - destruct (height_reached d h) eqn:Hh.
    { rewrite grow_leaf by now left. eauto. }
    destruct (Nat.leb_spec (nrows X) 1) as [Hm | Hm].
    { rewrite grow_leaf by now right. eauto. }
    rewrite grow_split by assumption.
    destruct (randint (ncols X) g) as [j g1].
    destruct (random_sample g1) as [u g2]. cbv zeta.
    assert (fuel_suffices fuel (d + 1) h) as Hf'.
    { destruct h as [z | |]; cbn in Hh, Hf |- *;
        [| discriminate | contradiction].
      apply Z.leb_gt in Hh. lia. }
    destruct (IH (select (goes_left j (split_value_of X j u)) X) (d + 1)%Z h g2
                Hn Hf') as (l & g3 & ->).
    destruct (IH (select (goes_right j (split_value_of X j u)) X) (d + 1)%Z h g3
                Hn Hf') as (r & g4 & ->).
    eauto.
Qed.

(** The feature indices of a grown tree are columns of the sample. *)
Lemma grow_attrs_below (fuel : nat) :
  forall (X : ndarray) (d : Z) (h : height) (g g' : G) (t : node),
  ITree._grow fuel X d h g = (Ok t, g') -> attrs_below (ncols X) t.
Proof.
  intros X d h g g' t E. apply grow_sound in E.
  induction E as [X d Hl | X d j v l r Hh Hm Hj Hv _ IHl _ IHr]; cbn; auto.
Qed.

(** No node lies deeper than the levels left below the current one. *)
Lemma grow_depth (fuel : nat) :
  forall (X : ndarray) (d z : Z) (g g' : G) (t : node),
  ITree._grow fuel X d (Hfin z) g = (Ok t, g') ->
  (Z.of_nat (depth_of t) <= Z.max 0 (z - d))%Z.
Proof.
  intros X d z g g' t E. apply grow_sound in E.
  induction E as [X d Hl | X d j v l r Hh Hm Hj Hv _ IHl _ IHr];
    cbn [depth_of]; [lia|].
  cbn in Hh. apply Z.leb_gt in Hh. lia.
Qed.

End TreeFacts.

(** The walk counts one step per internal node, so it ends within the
    depth of the tree. *)
Lemma walk_bounded (t : node) :
  forall (x : list Q) (acc p s : nat),
  ITree.walk t x acc = Ok (p, s) -> (p <= acc + depth_of t)%nat.
Proof.
  induction t as [size | j v l IHl r IHr]; intros x acc p s E; cbn in E.
  - injection E as <- _. cbn. lia.
  - destruct (compare j v x) as [[|] | e]; cbn in E; [| |discriminate].
    + apply IHr in E. cbn [depth_of]. lia.
    + apply IHl in E. cbn [depth_of]. lia.
Qed.

(** On a row that has every feature the tree asks for, the walk returns
    what section 4.2 describes. *)
Lemma walk_spec_path (t : node) :
  forall (x : list Q) (acc : nat),
  attrs_below (length x) t ->
  ITree.walk t x acc
  = Ok ((acc + fst (spec_path t x))%nat, snd (spec_path t x)).
Proof.
  induction t as [size | j v l IHl r IHr]; intros x acc W; cbn.
  - now rewrite Nat.add_0_r.
  - destruct W as (Hj & Wl & Wr). unfold compare.
    destruct (nth_error x j) as [w |] eqn:E.
    2:{ apply nth_error_None in E. lia. }
    assert (feature j x = w) as ->.
    { unfold feature. now apply nth_error_nth. }
    cbn [rbind]. destruct (Qle_bool v w).
    + rewrite IHr by assumption. destruct (spec_path r x). cbn.
      now rewrite Nat.add_succ_r.
    + rewrite IHl by assumption. destruct (spec_path l x). cbn.
      now rewrite Nat.add_succ_r.
Qed.

(* ------------------------------------------------------------------ *)
(** ** Tree construction and the path-length query *)

Section TreeClaims.
Context {G : Type} {RS : RandomState G}.

(** C3.  [_grow] follows the recursion of section 4.1: on a sample with
    at least one column, and with nesting for one call per level, it
    returns a tree, and that tree is [grown]: a leaf holding the row count
    when the depth has reached the limit or at most one row is left,
    otherwise an internal node with a feature index among the columns, a
    threshold in [a, b) between the minimum and maximum of that feature,
    and the trees grown one level deeper from the rows below the threshold
    and from the rows at or above it. *)
Theorem grow_follows_spec (fuel : nat) (X : ndarray) (d : Z) (h : height)
    (g : G) :
  (0 < ncols X)%nat ->
  fuel_suffices fuel d h ->
  exists t g', ITree._grow fuel X d h g = (Ok t, g') /\ grown h X d t.
Proof.
  intros Hn Hf.
  destruct (grow_total fuel X d h g Hn Hf) as (t & g' & E).
  exists t, g'. split; [exact E|]. eapply grow_sound; exact E.
Qed.

(** C5.  In a tree built with a height limit [h >= 0], no node lies
    deeper than [h], and no path-length query returns more than [h]. *)
Theorem path_length_bounded (recursion_limit : nat) (h : Z) (X : ndarray)
    (g g' : G) (tree : ITree.t) :
  (0 <= h)%Z ->
  ITree.fit recursion_limit (Hfin h) X g = (Ok tree, g') ->
  (Z.of_nat (depth_of (ITree.root tree)) <= h)%Z /\
  forall (x : list Q) (p s : nat),
    ITree.path_length_and_leaf_size tree x = Ok (p, s) ->
    (Z.of_nat p <= h)%Z.
Proof.
  intros Hh E. unfold ITree.fit, bind in E.
  destruct (ITree._grow recursion_limit X 0 (Hfin h) g) as [[t | e] g1] eqn:Eg;
    [|discriminate].
  cbn in E. injection E as <- <-. cbn [ITree.root].
  apply grow_depth in Eg.
  split; [lia|].
  intros x p s W. unfold ITree.path_length_and_leaf_size in W.
  cbn [ITree.root] in W. apply walk_bounded in W. lia.
Qed.

(** C6.  When every row has the same value [c] on the chosen feature, the
    minimum and maximum coincide, the threshold equals them, every row
    goes right, the left selection is empty and the right one is the
    whole sample.  The call returns an internal node over an empty leaf
    and over the tree grown from the same rows one level deeper; it
    raises only if that deeper call does, which a finite height limit
    within the nesting excludes. *)
Theorem degenerate_split (fuel : nat) (X : ndarray) (d : Z) (h : height)
    (g g1 g2 : G) (j : nat) (u c : Q) :
  height_reached d h = false ->
  (1 < nrows X)%nat ->
  (0 < ncols X)%nat ->
  randint (ncols X) g = (j, g1) ->
  random_sample g1 = (u, g2) ->
  (forall x, In x (rows X) -> (feature j x == c)%Q) ->
  let a := pymin (column X j) in
  let b := pymax (column X j) in
  let v := split_value_of X j u in
  (a == b)%Q /\ (v == a)%Q /\
  (forall x, In x (rows X) -> goes_right j v x = true) /\
  rows (select (goes_left j v) X) = [] /\
  select (goes_right j v) X = X /\
  ITree._grow (S (S fuel)) X d h g
  = match ITree._grow (S fuel) X (d + 1) h g2 with
    | (Ok r, g3) => (Ok (ITreeNode j v (ITreeLeaf 0) r), g3)
    | (Raise e, g3) => (Raise e, g3)
    end /\
  (fuel_suffices (S (S fuel)) d h ->
   exists r g3,
     ITree._grow (S (S fuel)) X d h g = (Ok (ITreeNode j v (ITreeLeaf 0) r), g3)).
Proof.
  intros Hh Hm Hn Ej Eu Hc a b v.
  assert (forall y, In y (column X j) -> (y == c)%Q) as Hcol.
  { intros y Hy. unfold column in Hy. apply in_map_iff in Hy.
    destruct Hy as (x & <- & Hx). now apply Hc. }
  pose proof (column_nonempty X j Hm) as Hne.
  assert (a == c)%Q as Ha by (apply Hcol; now apply pymin_In).
  assert (b == c)%Q as Hb by (apply Hcol; now apply pymax_In).
  assert (v == a)%Q as Hv.
  { unfold v, split_value_of. fold a b. rewrite Ha, Hb. ring. }
  assert (forall x, In x (rows X) -> goes_right j v x = true) as Hr.
  { intros x Hx. unfold goes_right. apply Qle_bool_iff.
    rewrite Hv, Ha, (Hc x Hx). apply Qle_refl. }
  assert (select (goes_left j v) X = {| ncols := ncols X; rows := [] |}) as El.
  { unfold select. f_equal. apply filter_none. intros x Hx.
    rewrite goes_left_right, Hr by assumption. reflexivity. }
  assert (select (goes_right j v) X = X) as Er.
  { unfold select. rewrite filter_all by assumption. now destruct X. }
  assert (ITree._grow (S (S fuel)) X d h g
          = match ITree._grow (S fuel) X (d + 1) h g2 with
            | (Ok r, g3) => (Ok (ITreeNode j v (ITreeLeaf 0) r), g3)
            | (Raise e, g3) => (Raise e, g3)
            end) as Eq.
  { rewrite grow_split by assumption. rewrite Ej, Eu. cbv zeta. fold v.
    rewrite El, Er.
    rewrite (grow_leaf fuel) by (right; cbn; lia). reflexivity. }
  split; [now rewrite Ha, Hb|].
  split; [exact Hv|].
  split; [exact Hr|].
  split; [now rewrite El|].
  split; [exact Er|].
  split; [exact Eq|].
  intros Hf. rewrite Eq.
  assert (fuel_suffices (S fuel) (d + 1) h) as Hf'.
  { destruct h as [z | |]; cbn in Hh, Hf |- *;
      [| discriminate | contradiction].
    apply Z.leb_gt in Hh. lia. }
  destruct (grow_total (S fuel) X (d + 1)%Z h g2 Hn Hf') as (r & g3 & ->).
  eauto.
Qed.

(** C7.  In a tree that [_grow] built from the rows [X], at every
    internal node the rows sent left and the rows sent right add up to
    the rows that reached the node, and together they are those rows up
    to order; every leaf holds the count of the rows that reached it. *)
Theorem rows_conserved (fuel : nat) (X : ndarray) (d : Z) (h : height)
    (g g' : G) (t : node) :
  ITree._grow fuel X d h g = (Ok t, g') -> conserves (rows X) t.
Proof.
  intros E. apply grow_sound in E.
  induction E as [X d Hl | X d j v l r Hh Hm Hj Hv _ IHl _ IHr];
    cbn [conserves]; [reflexivity|].
  split; [|split; [|split]].
  - apply filter_partition_length. apply goes_left_right.
  - apply filter_partition_perm. apply goes_left_right.
  - exact IHl.
  - exact IHr.
Qed.

End TreeClaims.

Lemma grow_follows_spec_witness :
  exists t g',
    ITree._grow (RS := Lcg.lcg) 10 X4 0 (Hfin 2) 7%Z = (Ok t, g') /\
    grown (Hfin 2) X4 0 t.
Proof.
  apply (grow_follows_spec (RS := Lcg.lcg) 10 X4 0 (Hfin 2) 7%Z).
  - cbn. lia.
  - cbn. lia.
Defined.

Lemma path_length_bounded_witness :
  exists tree g',
    ITree.fit (RS := Lcg.lcg) 10 (Hfin 2) X4 7%Z = (Ok tree, g') /\
    (Z.of_nat (depth_of (ITree.root tree)) <= 2)%Z /\
    forall (x : list Q) (p s : nat),
      ITree.path_length_and_leaf_size tree x = Ok (p, s) ->
      (Z.of_nat p <= 2)%Z.
Proof.
  eexists. eexists. split.
  - vm_compute. reflexivity.
  - eapply (path_length_bounded (RS := Lcg.lcg) 10 2 X4 7%Z).
    + lia.
    + vm_compute. reflexivity.
Defined.

Lemma rows_conserved_witness :
  exists t g',
    ITree._grow (RS := Lcg.lcg) 10 X4 0 (Hfin 2) 7%Z = (Ok t, g') /\
    conserves (rows X4) t.
Proof.
  eexists. eexists. split.
  - vm_compute. reflexivity.
  - eapply (rows_conserved (RS := Lcg.lcg) 10 X4 0 (Hfin 2) 7%Z).
    vm_compute. reflexivity.
Defined.

Lemma degenerate_split_witness :
  exists (j : nat) (v : Q) (r : node) (g3 : Z),
    (v == 5)%Q /\
    rows (select (goes_left j v) Xconst) = [] /\
    select (goes_right j v) Xconst = Xconst /\
    ITree._grow (RS := Lcg.lcg) 3 Xconst 0 (Hfin 2) 7%Z
    = (Ok (ITreeNode j v (ITreeLeaf 0) r), g3).
Proof.
  assert (Ej : randint (RandomState := Lcg.lcg) (ncols Xconst) 7%Z
               = (0%nat, 1282168116%Z)) by (vm_compute; reflexivity).
  assert (Eu : random_sample (RandomState := Lcg.lcg) 1282168116%Z
               = ((642666333 # 2147483648)%Q, 642666333%Z))
    by (vm_compute; reflexivity).
  pose proof (degenerate_split (RS := Lcg.lcg) 1 Xconst 0 (Hfin 2)
                7%Z 1282168116%Z 642666333%Z 0%nat
                (642666333 # 2147483648)%Q 5%Q) as H.
  cbv zeta in H.
  destruct H as (Hab & Hv & Hr & Hl & Hsel & Heq & Hok).
  - reflexivity.
  - cbn. lia.
  - cbn. lia.
  - exact Ej.
  - exact Eu.
  - intros x Hx. cbn in Hx.
    destruct Hx as [<- | [<- | [<- | []]]]; reflexivity.
  - destruct Hok as (r & g3 & E); [cbn; lia|].
    exists 0%nat, (split_value_of Xconst 0 (642666333 # 2147483648)%Q), r, g3.
    split; [|split; [exact Hl | split; [exact Hsel | exact E]]].
    rewrite Hv. vm_compute. reflexivity.
Defined.

(* ------------------------------------------------------------------ *)
(** ** Fitting the forest *)

Lemma np_ceil_log2_int (z : Z) :
  (1 <= z)%Z ->
  exists k, np_ceil_log2 (PyInt z) = Hfin k /\
            (0 <= k)%Z /\ (2 ^ (k - 1) < z <= 2 ^ k)%Z.
Proof.
  intros Hz. exists (Z.log2_up z). unfold np_ceil_log2. cbn [toQ].
  assert (Qlt_bool (inject_Z z) 0 = false) as ->.
  { apply Qlt_bool_false_iff. change 0%Q with (inject_Z 0).
    rewrite <- Zle_Qle. lia. }
  assert (Qeq_bool (inject_Z z) 0 = false) as ->.
  { change 0%Q with (inject_Z 0). rewrite Qeq_bool_inject_Z.
    apply Z.eqb_neq. lia. }
  assert (Qle_bool 1 (inject_Z z) = true) as ->.
  { change 1%Q with (inject_Z 1). rewrite Qle_bool_inject_Z.
    now apply Z.leb_le. }
  rewrite Qceiling_Z. split; [reflexivity|].
  split; [apply Z.log2_up_nonneg|].
  destruct (Z.eq_dec z 1) as [-> | N].
  - cbn. lia.
  - pose proof (Z.log2_up_spec z ltac:(lia)) as S.
    now rewrite <- Z.sub_1_r in S.
Qed.

Section ForestFacts.
Context {G : Type} {RS : RandomState G}.

Lemma tree_fit_inv (limit : nat) (h : height) (X : ndarray) (g g' : G)
    (tree : ITree.t) :
  ITree.fit limit h X g = (Ok tree, g') ->
  ITree._grow limit X 0 h g = (Ok (ITree.root tree), g') /\
  ITree.height_limit tree = h.
Proof.
  unfold ITree.fit, bind. intros E.
  destruct (ITree._grow limit X 0 h g) as [[t | e] g1]; [|discriminate].
  cbn in E. injection E as <- <-. auto.
Qed.

Lemma bind_assoc {A B C} (c : M G A) (k : A -> M G B) (k' : B -> M G C)
    (g : G) :
  bind (bind c k) k' g = bind c (fun a => bind (k a) k') g.
Proof. unfold bind. destruct (c g) as [[a | e] g1]; reflexivity. Qed.

Lemma bind_ext {A B} (c : M G A) (k k' : A -> M G B) (g : G) :
  (forall a g1, k a g1 = k' a g1) -> bind c k g = bind c k' g.
Proof.
  intros H. unfold bind. destruct (c g) as [[a | e] g1]; [apply H | reflexivity].
Qed.

(** The loop composes: [k + j] iterations are [k] iterations followed by
    [j] more, on the list and the generator that the first [k] left. *)
Lemma build_trees_app (limit : nat) (X : ndarray) (psi : pynum) (h : height)
    (k j : nat) :
  forall (acc : list ITree.t) (g : G),
  IForest.build_trees limit X psi h (k + j) acc g
  = bind (IForest.build_trees limit X psi h k acc)
         (fun ts => IForest.build_trees limit X psi h j ts) g.
Proof.
  induction k as [| k IH]; intros acc g.
  - reflexivity.
  - cbn [Nat.add IForest.build_trees].
    rewrite bind_assoc. apply bind_ext. intros perm g1. cbv beta.
    rewrite bind_assoc. apply bind_ext. intros ind g2. cbv beta.
    rewrite bind_assoc. apply bind_ext. intros tree g3. cbv beta.
    apply IH.
Qed.

(** The loop only appends: the trees built so far stay in front. *)
Lemma build_trees_extends (limit : nat) (X : ndarray) (psi : pynum)
    (h : height) (k : nat) :
  forall (acc ts : list ITree.t) (g g' : G),
  IForest.build_trees limit X psi h k acc g = (Ok ts, g') ->
  exists new, ts = acc ++ new /\ length new = k /\
    Forall (fun tree => attrs_below (ncols X) (ITree.root tree)) new.
Proof.
  induction k as [| k IH]; intros acc ts g g' E.
  - cbn in E. injection E as <- <-. exists []. now rewrite app_nil_r.
  - cbn [IForest.build_trees] in E. unfold bind at 1 in E.
    destruct (draw (permutation (nrows X)) g) as [[perm | e] g1];
      [|discriminate].
    unfold bind at 1 in E.
    destruct (IForest.py_slice perm psi g1) as [[ind | e] g2]; [|discriminate].
    unfold bind at 1 in E.
    destruct (ITree.fit limit h (take X ind) g2) as [[tree | e] g3] eqn:Et;
      [|discriminate].
    apply IH in E. destruct E as (new & -> & Hl & Hf).
    exists (tree :: new). rewrite <- app_assoc. cbn.
    split; [reflexivity|]. split; [now rewrite Hl|].
    constructor; [|exact Hf].
    apply tree_fit_inv in Et. destruct Et as [Et _].
    apply grow_attrs_below in Et. exact Et.
Qed.

(** [fit] spelled out. *)
Lemma fit_eq (limit : nat) (self : IForest.t G) (X : ndarray) (w : G) :
  IForest.fit limit self X w
  = let psi := resolve_psi (IForest.subsample_size self) (nrows X) in
    let h := match IForest.height_limit self with
             | None => np_ceil_log2 psi
             | Some h => h
             end in
    let g := IForest.maybe_default_random_state (IForest.random_state self) w in
    let after g' :=
      IForest.after_random_state (IForest.random_state self) g' w in
    match IForest.build_trees limit X psi h (IForest.num_trees self) [] g with
    | (Ok trees, g') =>
        (Ok tt,
         IForest.mk (IForest.num_trees self) (IForest.subsample_size self)
           trees (Some h) (fst (after g')) (Some psi),
         snd (after g'))
    | (Raise e, g') =>
        (Raise e,
         IForest.mk (IForest.num_trees self) (IForest.subsample_size self)
           (IForest.trees self) (Some h) (fst (after g')) (IForest.psi self),
         snd (after g'))
    end.
Proof.
  unfold IForest.fit. cbv zeta.
  destruct (IForest.build_trees _ _ _ _ _ _ _) as [[ts | e] g'];
    destruct (IForest.after_random_state _ _ _); reflexivity.
Qed.

(** Whatever the outcome, [fit] leaves a height limit behind: the one it
    found, or the one it derived. *)
Lemma fit_height_limit (limit : nat) (self : IForest.t G) (X : ndarray)
    (w : G) :
  IForest.height_limit (forest_of (IForest.fit limit self X w))
  = Some match IForest.height_limit self with
         | None => np_ceil_log2
                     (resolve_psi (IForest.subsample_size self) (nrows X))
         | Some h => h
         end.
Proof.
  rewrite fit_eq. cbv zeta.
  destruct (IForest.build_trees _ _ _ _ _ _ _) as [[ts | e] g']; reflexivity.
Qed.

Lemma fit_hyperparameters (limit : nat) (self : IForest.t G) (X : ndarray)
    (w : G) :
  IForest.num_trees (forest_of (IForest.fit limit self X w))
  = IForest.num_trees self /\
  IForest.subsample_size (forest_of (IForest.fit limit self X w))
  = IForest.subsample_size self.
Proof.
  rewrite fit_eq. cbv zeta.
  destruct (IForest.build_trees _ _ _ _ _ _ _) as [[ts | e] g']; auto.
Qed.

(** A successful [fit] stores the trees of the loop and the resolved
    [psi]. *)
Lemma fit_ok_inv (limit : nat) (self self' : IForest.t G) (X : ndarray)
    (w w' : G) :
  IForest.fit limit self X w = (Ok tt, self', w') ->
  let psi := resolve_psi (IForest.subsample_size self) (nrows X) in
  let h := match IForest.height_limit self with
           | None => np_ceil_log2 psi
           | Some h => h
           end in
  IForest.psi self' = Some psi /\
  exists g',
    IForest.build_trees limit X psi h (IForest.num_trees self) []
      (IForest.maybe_default_random_state (IForest.random_state self) w)
    = (Ok (IForest.trees self'), g').
Proof.
  rewrite fit_eq. cbv zeta.
  destruct (IForest.build_trees _ _ _ _ _ _ _) as [[ts | e] g'];
    [|discriminate].
  intros E. injection E as <- <-. cbn. eauto.
Qed.

End ForestFacts.

Section FitClaims.
Context {G : Type} {RS : RandomState G}.

(** C4.  [fit] resolves the subsample size from the configured value and
    the row count [m]: a value up to 1.0 is a fraction, and [psi] is the
    int [ceil(subsample_size * m)], the least integer not below the
    product; any other value is taken as it is, int or float, unchecked.
    A successful [fit] stores that [psi].  A quarter of 100 rows gives 25,
    and the count 10 gives 10 for every [m]. *)
Theorem psi_resolution (limit : nat) (self : IForest.t G) (X : ndarray)
    (w : G) :
  let ss := IForest.subsample_size self in
  let m := inject_Z (Z.of_nat (nrows X)) in
  let psi := resolve_psi ss (nrows X) in
  ((toQ ss <= 1)%Q ->
     psi = PyInt (Qceiling (toQ ss * m)) /\
     (inject_Z (Qceiling (toQ ss * m) - 1) < toQ ss * m)%Q /\
     (toQ ss * m <= inject_Z (Qceiling (toQ ss * m)))%Q) /\
  ((1 < toQ ss)%Q -> psi = ss) /\
  (forall self' w',
     IForest.fit limit self X w = (Ok tt, self', w') ->
     IForest.psi self' = Some psi) /\
  resolve_psi (PyFloat (1 # 4)) 100 = PyInt 25 /\
  (forall m', resolve_psi (PyInt 10) m' = PyInt 10).
Proof.
  intros ss m psi.
  split; [|split; [|split; [|split]]].
  - intros H. split; [|split].
    + unfold psi, resolve_psi. apply Qle_bool_iff in H. now rewrite H.
    + apply Qceiling_lt.
    + apply Qle_ceiling.
  - intros H. unfold psi, resolve_psi.
    apply Qle_bool_false_iff in H. now rewrite H.
  - intros self' w' E. apply fit_ok_inv in E. now destruct E as [E _].
  - reflexivity.
  - intros m'. reflexivity.
Qed.

(** C9.  A forest constructed without a height limit gets one from its
    first [fit]: [ceil(log2(psi))] for the [psi] resolved in that call
    (for an int [psi >= 1], the [k >= 0] with [2^(k-1) < psi <= 2^k]).
    A later [fit], on whatever data, leaves it as it is. *)
Theorem height_limit_cached (limit1 limit2 : nat) (self : IForest.t G)
    (X1 X2 : ndarray) (w1 w2 : G) :
  IForest.height_limit self = None ->
  let psi1 := resolve_psi (IForest.subsample_size self) (nrows X1) in
  let self1 := forest_of (IForest.fit limit1 self X1 w1) in
  let self2 := forest_of (IForest.fit limit2 self1 X2 w2) in
  IForest.height_limit self1 = Some (np_ceil_log2 psi1) /\
  (forall z, psi1 = PyInt z -> (1 <= z)%Z ->
     exists k, np_ceil_log2 psi1 = Hfin k /\
               (0 <= k)%Z /\ (2 ^ (k - 1) < z <= 2 ^ k)%Z) /\
  IForest.height_limit self2 = IForest.height_limit self1.
Proof.
  intros Hnone psi1 self1 self2.
  assert (IForest.height_limit self1 = Some (np_ceil_log2 psi1)) as H1.
  { unfold self1. rewrite fit_height_limit, Hnone. reflexivity. }
  split; [exact H1|]. split.
  - intros z -> Hz. now apply np_ceil_log2_int.
  - unfold self2. rewrite fit_height_limit, H1. reflexivity.
Qed.

(** C8.  [fit] followed by [predict] is a function of the
    hyperparameters, the seed and the data.  Two forests with the same
    hyperparameters and the same [random_state] argument (the same int
    seed, or generator objects in the same state, or [None] with the
    process-wide generator in the same state), fitted on the same data,
    end the same way, whatever they held before; with an int seed the
    state of the process-wide generator does not matter.  When [fit]
    succeeds the forests are equal as a whole (same trees, same [psi],
    same height limit) and give the same scores on every query.  The
    trees come from one loop over one generator: [k + j] iterations are
    [k] iterations followed by [j] more from where the first [k]
    stopped. *)
Theorem fit_predict_deterministic (limit : nat) (self1 self2 : IForest.t G)
    (X Xq : ndarray) (w1 w2 : G) :
  IForest.num_trees self1 = IForest.num_trees self2 ->
  IForest.subsample_size self1 = IForest.subsample_size self2 ->
  IForest.height_limit self1 = IForest.height_limit self2 ->
  IForest.random_state self1 = IForest.random_state self2 ->
  (IForest.random_state self1 = IForest.RSNone -> w1 = w2) ->
  let r1 := IForest.fit limit self1 X w1 in
  let r2 := IForest.fit limit self2 X w2 in
  outcome_of r1 = outcome_of r2 /\
  (outcome_of r1 = Ok tt ->
     forest_of r1 = forest_of r2 /\
     IForest.predict (forest_of r1) Xq = IForest.predict (forest_of r2) Xq) /\
  (forall psi h k j acc g,
     IForest.build_trees limit X psi h (k + j) acc g
     = bind (IForest.build_trees limit X psi h k acc)
            (fun ts => IForest.build_trees limit X psi h j ts) g).
Proof.
  intros Hn Hs Hh Hr Hw r1 r2. unfold r1, r2.
  rewrite !fit_eq. cbv zeta. rewrite <- Hr, <- Hn, <- Hs, <- Hh.
  assert (IForest.maybe_default_random_state (IForest.random_state self1) w2
          = IForest.maybe_default_random_state (IForest.random_state self1) w1)
    as ->.
  { destruct (IForest.random_state self1); cbn; [now rewrite Hw | |];
      reflexivity. }
  destruct (IForest.build_trees _ _ _ _ _ _ _) as [[ts | e] g'].
  - cbn [outcome_of forest_of fst snd].
    assert (fst (IForest.after_random_state (IForest.random_state self1) g' w1)
            = fst (IForest.after_random_state (IForest.random_state self1) g' w2))
      as Ha by (destruct (IForest.random_state self1); reflexivity).
    rewrite Ha.
    split; [reflexivity|]. split; [intros _; split; reflexivity|].
    intros. apply build_trees_app.
  - cbn [outcome_of forest_of fst snd].
    split; [reflexivity|]. split; [discriminate|].
    intros. apply build_trees_app.
Qed.

End FitClaims.

Lemma psi_resolution_witness :
  exists self' w',
    IForest.fit (RS := Lcg.lcg) 100 forest_seeded X4 0%Z = (Ok tt, self', w') /\
    IForest.psi self' = Some (PyInt 4).
Proof.
  eexists. eexists. split.
  - vm_compute. reflexivity.
  - destruct (psi_resolution (RS := Lcg.lcg) 100 forest_seeded X4 0%Z)
      as (_ & _ & H & _).
    erewrite H; [|vm_compute; reflexivity].
    vm_compute. reflexivity.
Defined.

Lemma height_limit_cached_witness :
  let self1 := forest_of (IForest.fit (RS := Lcg.lcg) 100 forest_seeded X4 0%Z) in
  let self2 := forest_of (IForest.fit (RS := Lcg.lcg) 100 self1 X8 0%Z) in
  IForest.height_limit self2 = Some (Hfin 2) /\
  np_ceil_log2 (resolve_psi (IForest.subsample_size self1) (nrows X8)) = Hfin 3.
Proof.
  intros self1 self2.
  destruct (height_limit_cached (RS := Lcg.lcg) 100 100 forest_seeded X4 X8
              0%Z 0%Z eq_refl) as (H1 & _ & H2).
  split.
  - unfold self2, self1. rewrite H2, H1. vm_compute. reflexivity.
  - vm_compute. reflexivity.
Defined.

Lemma fit_predict_deterministic_witness :
  let r1 := IForest.fit (RS := Lcg.lcg) 100 forest_seeded X4 0%Z in
  let r2 := IForest.fit (RS := Lcg.lcg) 100 forest_seeded X4 12345%Z in
  outcome_of r1 = Ok tt /\
  forest_of r1 = forest_of r2 /\
  IForest.predict (forest_of r1) X4 = IForest.predict (forest_of r2) X4.
Proof.
  intros r1 r2.
  destruct (fit_predict_deterministic (RS := Lcg.lcg) 100
              forest_seeded forest_seeded X4 X4 0%Z 12345%Z
              eq_refl eq_refl eq_refl eq_refl) as (_ & H & _).
  - cbn. discriminate.
  - assert (outcome_of r1 = Ok tt) as Hok by (vm_compute; reflexivity).
    split; [exact Hok|]. exact (H Hok).
Defined.

(* ------------------------------------------------------------------ *)
(** ** Scoring *)

Lemma Rpower_2_unit (y : R) : (y <= 0)%R -> (0 < Rpower 2 y <= 1)%R.
Proof.
  intros Hy. unfold Rpower. split; [apply exp_pos|].
  pose proof ln_lt_2 as L2.
  assert (y * ln 2 <= 0)%R as Hle by nra.
  destruct Hle as [Hlt | Heq].
  - left. rewrite <- exp_0. now apply exp_increasing.
  - rewrite Heq, exp_0. lra.
Qed.

Lemma sum_R_nonneg (l : list R) :
  Forall (fun r => 0 <= r)%R l -> (0 <= sum_R l)%R.
Proof.
  induction 1 as [| r l Hr _ IH].
  - cbn. lra.
  - change (sum_R (r :: l)) with (r + sum_R l)%R. lra.
Qed.

Lemma computed_summand_nonneg (x : list Q) (tree : ITree.t) :
  (0 <= computed_summand x tree)%R.
Proof.
  unfold computed_summand. destruct (spec_path (ITree.root tree) x) as [p s].
  pose proof (pos_INR p). pose proof (adjustment_nat_nonneg s). lra.
Qed.

(** With a tree in the forest and a positive [c(psi)], both divisions of
    line 87 are ordinary ones. *)
Lemma normalise_regular (num : nat) (psi : pynum) (s : R) :
  (0 < num)%nat -> (0 < _adjustment psi)%R ->
  IForest.normalise num psi s
  = Fin (Rpower 2 (- (s / INR num / _adjustment psi))).
Proof.
  intros Hn Hc. unfold IForest.normalise. cbn [np_neg np_div].
  apply lt_0_INR in Hn.
  destruct (Req_dec_T (INR num) 0) as [E | _]; [lra|].
  cbn [np_div].
  destruct (Req_dec_T (_adjustment psi) 0) as [E | _]; [lra|].
  cbn [np_exp2]. do 2 f_equal. field. lra.
Qed.

(** With [c(psi) = 0] the second division is by zero: the entry becomes
    [nan] (from 0/0), or [-inf] or [+inf], and [2 ** ] of these is [nan],
    0 or [+inf]. *)
Lemma normalise_zero_divisor (num : nat) (psi : pynum) (s : R) :
  _adjustment psi = 0%R ->
  IForest.normalise num psi s = NaN \/
  IForest.normalise num psi s = PInf \/
  IForest.normalise num psi s = Fin 0.
Proof.
  intros Hc. unfold IForest.normalise. rewrite Hc.
  destruct (np_div (np_neg (Fin s)) (INR num)) as [r | | |]; cbn [np_div].
  - destruct (Req_dec_T 0 0) as [_ | N]; [|lra].
    destruct (Req_dec_T r 0); [now left|].
    destruct (Rlt_dec 0 r); cbn; auto.
  - destruct (Rlt_dec 0 0); [lra|]. cbn. auto.
  - destruct (Rlt_dec 0 0); [lra|]. cbn. auto.
  - cbn. auto.
Qed.

Lemma add_trees_spec (trees : list ITree.t) (x : list Q) :
  Forall (fun tree => attrs_below (length x) (ITree.root tree)) trees ->
  forall acc : R,
  IForest.add_trees trees x acc
  = Ok (acc + sum_R (map (computed_summand x) trees))%R.
Proof.
  induction 1 as [| tree trees Ht _ IH]; intros acc;
    cbn [IForest.add_trees].
  - f_equal. cbn. lra.
  - unfold ITree.path_length_and_leaf_size.
    rewrite walk_spec_path by exact Ht. cbn [rbind Nat.add].
    rewrite IH. f_equal.
    change (sum_R (map (computed_summand x) (tree :: trees)))
      with (computed_summand x tree + sum_R (map (computed_summand x) trees))%R.
    unfold computed_summand.
    destruct (spec_path (ITree.root tree) x) as [p s]. cbn [fst snd]. lra.
Qed.

Lemma sum_rows_spec (trees : list ITree.t) (X : list (list Q)) :
  (forall x, In x X ->
     Forall (fun tree => attrs_below (length x) (ITree.root tree)) trees) ->
  IForest.sum_rows trees X
  = Ok (map (fun x => sum_R (map (computed_summand x) trees)) X).
Proof.
  induction X as [| x X IH]; intros H; cbn; [reflexivity|].
  rewrite add_trees_spec by (apply H; now left). cbn [rbind].
  rewrite IH by (intros y Hy; apply H; now right). cbn [rbind].
  do 2 f_equal. lra.
Qed.

(** The computed score lies in (0, 1] once [_adjustment psi] is positive. *)
Lemma computed_score_unit (trees : list ITree.t) (psi : pynum) (x : list Q) :
  trees <> [] -> (0 < _adjustment psi)%R ->
  (0 < computed_score trees psi x <= 1)%R.
Proof.
  intros Hne Hc. unfold computed_score. apply Rpower_2_unit.
  assert (0 < INR (length trees))%R as Hn.
  { apply lt_0_INR. destruct trees; [congruence | cbn; lia]. }
  assert (0 <= sum_R (map (computed_summand x) trees))%R as Hs.
  { apply sum_R_nonneg. apply Forall_map. apply Forall_forall.
    intros tree _. apply computed_summand_nonneg. }
  assert (0 <= sum_R (map (computed_summand x) trees) / INR (length trees)
               / _adjustment psi)%R.
  { unfold Rdiv. apply Rmult_le_pos; [apply Rmult_le_pos|].
    - exact Hs.
    - left. now apply Rinv_0_lt_compat.
    - left. now apply Rinv_0_lt_compat. }
  lra.
Qed.

(** [predict] on any forest state whose trees only ask for features the
    query rows have. *)
Lemma predict_general {G : Type} (self : IForest.t G) (X : ndarray)
    (psi : pynum) :
  IForest.psi self = Some psi ->
  (2 <= toQ psi)%Q ->
  IForest.trees self <> [] ->
  (forall x, In x (rows X) ->
     Forall (fun tree => attrs_below (length x) (ITree.root tree))
            (IForest.trees self)) ->
  IForest.predict self X
  = Ok (map (fun x => Fin (computed_score (IForest.trees self) psi x)) (rows X)) /\
  (forall x, In x (rows X) ->
     (0 < computed_score (IForest.trees self) psi x <= 1)%R).
Proof.
  intros Hpsi H2 Hne Hw.
  pose proof (adjustment_pos psi H2) as Hc.
  split.
  - unfold IForest.predict. rewrite sum_rows_spec by exact Hw.
    cbn [rbind]. rewrite Hpsi. f_equal. rewrite map_map.
    apply map_ext. intros x.
    rewrite normalise_regular;
      [reflexivity | destruct (IForest.trees self); [congruence | cbn; lia]
      | exact Hc].
  - intros x _. now apply computed_score_unit.
Qed.

(** From 3 on the estimator of section 4.3 is positive, and the code's
    value on an int is strictly above it. *)
Lemma c_ref_pos (k : Z) : (3 <= k)%Z -> (0 < c_ref k)%R.
Proof.
  intros H. unfold c_ref.
  destruct (Z.leb_spec k 1); [lia|].
  destruct (Z.eqb_spec k 2); [lia|].
  assert (3 <= IZR k)%R as Hk by (apply IZR_le in H; exact H).
  assert (ln 2 <= ln (IZR k - 1))%R as Hln.
  { destruct (Req_dec (IZR k - 1) 2) as [-> | N]; [lra|].
    left. apply ln_increasing; lra. }
  pose proof ln_lt_2 as L2. pose proof euler_gamma_bounds as [G1 _].
  assert (2 * (IZR k - 1) / IZR k = 2 - 2 * / IZR k)%R as -> by (field; lra).
  assert (0 < / IZR k)%R by (apply Rinv_0_lt_compat; lra).
  lra.
Qed.

Lemma adjustment_above_ref (k : Z) :
  (3 <= k)%Z -> (c_ref k < _adjustment (PyInt k))%R.
Proof.
  intros H. rewrite adjustment_int_vs_ref by exact H.
  assert (3 <= IZR k)%R as Hk by (apply IZR_le in H; exact H).
  assert (0 < (IZR k - 2) / IZR k)%R.
  { unfold Rdiv. apply Rmult_lt_0_compat; [lra|].
    apply Rinv_0_lt_compat. lra. }
  lra.
Qed.

(** On a leaf of at most two rows the summand of line 85 is the one of
    section 4.5. *)
Lemma summand_small_leaf (x : list Q) (tree : ITree.t) :
  (snd (spec_path (ITree.root tree) x) <= 2)%nat ->
  computed_summand x tree = adjusted_path x tree.
Proof.
  unfold computed_summand, adjusted_path.
  destruct (spec_path (ITree.root tree) x) as [p s]. cbn [snd]. intros H.
  rewrite adjustment_int_le_2 by lia. reflexivity.
Qed.

Lemma sum_small_leaves (x : list Q) (trees : list ITree.t) :
  Forall (fun tree => (snd (spec_path (ITree.root tree) x) <= 2)%nat) trees ->
  sum_R (map (computed_summand x) trees) = sum_R (map (adjusted_path x) trees).
Proof.
  induction 1 as [| tree trees Ht _ IH]; [reflexivity|].
  cbn [map]. unfold sum_R in *. cbn [fold_right].
  rewrite IH, (summand_small_leaf x tree Ht). reflexivity.
Qed.

Lemma summand_above_path (x : list Q) (tree : ITree.t) :
  (INR (fst (spec_path (ITree.root tree) x)) <= computed_summand x tree)%R.
Proof.
  unfold computed_summand.
  destruct (spec_path (ITree.root tree) x) as [p s]. cbn [fst].
  pose proof (adjustment_nat_nonneg s). lra.
Qed.

Lemma sum_summands_pos (x : list Q) (trees : list ITree.t) :
  Exists (fun tree => (1 <= fst (spec_path (ITree.root tree) x))%nat) trees ->
  (0 < sum_R (map (computed_summand x) trees))%R.
Proof.
  induction 1 as [tree trees Ht | tree trees _ IH];
    cbn [map]; unfold sum_R in *; cbn [fold_right].
  - pose proof (summand_above_path x tree) as Hp.
    apply le_INR in Ht. cbn [INR] in Ht.
    assert (0 <= fold_right Rplus 0 (map (computed_summand x) trees))%R.
    { apply (sum_R_nonneg (map (computed_summand x) trees)).
      apply Forall_map. apply Forall_forall.
      intros t _. apply computed_summand_nonneg. }
    lra.
  - pose proof (computed_summand_nonneg x tree). lra.
Qed.

(** Same positive mean, larger divisor: the entry that [predict] computes
    is above the score of section 4.5. *)
Lemma score_above_reference (trees : list ITree.t) (k : Z) (x : list Q) :
  (3 <= k)%Z ->
  trees <> [] ->
  Forall (fun tree => (snd (spec_path (ITree.root tree) x) <= 2)%nat) trees ->
  Exists (fun tree => (1 <= fst (spec_path (ITree.root tree) x))%nat) trees ->
  (spec_score trees k x < computed_score trees (PyInt k) x)%R.
Proof.
  intros H3 Hne Hsmall Hdeep. unfold spec_score, computed_score.
  rewrite <- (sum_small_leaves x trees Hsmall).
  pose proof (sum_summands_pos x trees Hdeep) as Hs.
  pose proof (c_ref_pos k H3) as Hc.
  pose proof (adjustment_above_ref k H3) as Hc'.
  assert (0 < INR (length trees))%R as Hn.
  { apply lt_0_INR. destruct trees; [congruence | cbn; lia]. }
  set (m := (sum_R (map (computed_summand x) trees) / INR (length trees))%R).
  assert (0 < m)%R as Hm.
  { unfold m, Rdiv. apply Rmult_lt_0_compat; [exact Hs|].
    now apply Rinv_0_lt_compat. }
  apply Rpower_lt; [lra|].
  apply Ropp_lt_contravar. unfold Rdiv.
  apply Rmult_lt_compat_l; [exact Hm|].
  apply Rinv_lt_contravar; [|exact Hc'].
  apply Rmult_lt_0_compat; lra.
Qed.

Section PredictClaims.
Context {G : Type} {RS : RandomState G}.

(** C1 (the defect of C2, seen through [predict]).  On a forest that [fit]
    has built, with an int [psi >= 3] and at least one tree, [predict]
    returns one entry per query row (of the width of the training data),
    each in (0, 1]; but the entry is [2^(-(mean / c(psi)))] with
    [_adjustment] in the place of the estimator [c], and [_adjustment] is
    above [c] on every int from 3 on.  So for every row that ends in leaves
    of at most two rows in all trees, after at least one decision in some
    tree, the entry returned is strictly above the score of section 4.5. *)
Theorem predict_departs_from_reference (limit : nat) (self0 self : IForest.t G)
    (Xtrain X : ndarray) (w w' : G) (k : Z) :
  IForest.fit limit self0 Xtrain w = (Ok tt, self, w') ->
  IForest.psi self = Some (PyInt k) ->
  (3 <= k)%Z ->
  IForest.trees self <> [] ->
  (forall x, In x (rows X) -> length x = ncols Xtrain) ->
  let trees := IForest.trees self in
  IForest.predict self X
  = Ok (map (fun x => Fin (computed_score trees (PyInt k) x)) (rows X)) /\
  (c_ref k < _adjustment (PyInt k))%R /\
  forall x, In x (rows X) ->
    (0 < computed_score trees (PyInt k) x <= 1)%R /\
    (Forall (fun tree => (snd (spec_path (ITree.root tree) x) <= 2)%nat)
            trees ->
     Exists (fun tree => (1 <= fst (spec_path (ITree.root tree) x))%nat)
            trees ->
     (spec_score trees k x < computed_score trees (PyInt k) x)%R).
Proof.
  intros Hfit Hpsi H3 Hne Hw trees.
  apply fit_ok_inv in Hfit. destruct Hfit as (_ & g' & Hb).
  apply build_trees_extends in Hb. destruct Hb as (new & Hnew & _ & Hattrs).
  cbn [app] in Hnew. subst new.
  assert (2 <= toQ (PyInt k))%Q as H2.
  { cbn [toQ]. change 2%Q with (inject_Z 2). rewrite <- Zle_Qle. lia. }
  destruct (predict_general self X (PyInt k) Hpsi H2 Hne) as [Hp Hu].
  { intros x Hx. rewrite (Hw x Hx). exact Hattrs. }
  split; [exact Hp|].
  split; [now apply adjustment_above_ref|].
  intros x Hx. split; [now apply Hu|].
  intros Hsmall Hdeep. now apply score_above_reference.
Qed.

(** C10.  [predict] reads [psi] without a check.  When [psi <= 1] the
    estimator gives [c(psi) = 0]; [predict] still performs the division,
    now by zero, and returns one entry per row none of which is a score
    in (0, 1]: every entry is [nan], [+inf] or 0. *)
Theorem predict_zero_divisor (self : IForest.t G) (X : ndarray)
    (psi : pynum) :
  IForest.psi self = Some psi ->
  (toQ psi <= 1)%Q ->
  (forall x, In x (rows X) ->
     Forall (fun tree => attrs_below (length x) (ITree.root tree))
            (IForest.trees self)) ->
  _adjustment psi = 0%R /\
  exists sums,
    IForest.sum_rows (IForest.trees self) (rows X) = Ok sums /\
    IForest.predict self X
    = Ok (map (IForest.normalise (length (IForest.trees self)) psi) sums) /\
    length sums = nrows X /\
    Forall (fun s => (s = NaN \/ s = PInf \/ s = Fin 0) /\ ~ in_unit s)
           (map (IForest.normalise (length (IForest.trees self)) psi) sums).
Proof.
  intros Hpsi Hle Hw.
  pose proof (adjustment_le_1 psi Hle) as Hc.
  split; [exact Hc|].
  eexists. split; [apply sum_rows_spec; exact Hw|].
  split; [|split].
  - unfold IForest.predict. rewrite sum_rows_spec by exact Hw.
    cbn [rbind]. now rewrite Hpsi.
  - now rewrite length_map.
  - apply Forall_map. apply Forall_forall. intros s _.
    pose proof (normalise_zero_divisor (length (IForest.trees self)) psi s Hc)
      as Hz.
    split; [exact Hz|].
    destruct Hz as [-> | [-> | ->]]; cbn; lra || tauto.
Qed.

End PredictClaims.

Lemma predict_departs_from_reference_witness :
  let self := forest_of (IForest.fit (RS := Lcg.lcg) 100 forest_seeded X4 0%Z) in
  let trees := IForest.trees self in
  IForest.psi self = Some (PyInt 4) /\
  IForest.predict self X4
  = Ok (map (fun x => Fin (computed_score trees (PyInt 4) x)) (rows X4)) /\
  (spec_score trees 4 [100; 100]%Q
   < computed_score trees (PyInt 4) [100; 100]%Q)%R.
Proof.
  intros self trees.
  assert (IForest.psi self = Some (PyInt 4)) as Hpsi
    by (vm_compute; reflexivity).
  split; [exact Hpsi|].
  destruct (predict_departs_from_reference (RS := Lcg.lcg) 100 forest_seeded
              self X4 X4 0%Z 0%Z 4%Z) as (Hp & _ & Hrow).
  - vm_compute. reflexivity.
  - exact Hpsi.
  - lia.
  - vm_compute. discriminate.
  - intros x Hx. cbn in Hx.
    destruct Hx as [<- | [<- | [<- | [<- | []]]]]; reflexivity.
  - split; [exact Hp|].
    destruct (Hrow [100; 100]%Q) as [_ Hlt].
    + cbn. auto.
    + apply Hlt.
      * vm_compute. repeat constructor.
      * vm_compute. apply Exists_cons_hd. constructor.
Defined.

(** The run behind C1: the outlier row of the witness forest is split off
    by the first decision of each of the three trees, so its mean adjusted
    path length is 1.  [predict] divides by [2(ln 3 + gamma) - 1] where
    section 4.3 has [c(4) = 2(ln 3 + gamma) - 3/2]. *)
Example predict_X4_outlier :
  let self := forest_of (IForest.fit (RS := Lcg.lcg) 100 forest_seeded X4 0%Z) in
  computed_score (IForest.trees self) (PyInt 4) [100; 100]%Q
  = Rpower 2 (- (1 / (2 * (ln 3 + euler_gamma) - 1))) /\
  spec_score (IForest.trees self) 4 [100; 100]%Q
  = Rpower 2 (- (1 / (2 * (ln 3 + euler_gamma) - 3 / 2))).
Proof.
  intros self.
  remember (IForest.trees self) as ts eqn:Ht. vm_compute in Ht. subst ts.
  split.
  - unfold computed_score, computed_summand.
    cbn [map spec_path ITree.root feature nth Qle_bool Qnum Qden sum_R
         fold_right length].
    vm_compute Qle_bool.
    cbn [map spec_path ITree.root sum_R fold_right length].
    rewrite (adjustment_int_ge_3 4) by lia.
    rewrite (adjustment_int_le_2 (Z.of_nat 1)) by (cbn; lia).
    unfold c_ref. cbn [Z.of_nat Z.leb Z.compare Pos.of_succ_nat Pos.compare
                       Pos.compare_cont INR].
    do 2 f_equal. replace (4 - 1)%R with 3%R by lra. field.
    pose proof (ln_nonneg 3 ltac:(lra)). pose proof euler_gamma_bounds. lra.
  - unfold spec_score, adjusted_path.
    cbn [map spec_path ITree.root sum_R fold_right length].
    vm_compute Qle_bool.
    cbn [map spec_path ITree.root sum_R fold_right length].
    unfold c_ref. cbn [Z.of_nat Z.leb Z.eqb Z.compare Pos.of_succ_nat
                       Pos.compare Pos.compare_cont Pos.eqb INR].
    do 2 f_equal. replace (4 - 1)%R with 3%R by lra. field.
    pose proof ln_lt_2. pose proof (ln_increasing 2 3 ltac:(lra) ltac:(lra)).
    pose proof euler_gamma_bounds. split; lra.
Qed.

Lemma predict_zero_divisor_witness :
  let self := forest_of (IForest.fit (RS := Lcg.lcg) 100 forest_quarter X4 0%Z) in
  IForest.psi self = Some (PyInt 1) /\
  _adjustment (PyInt 1) = 0%R /\
  exists scores,
    IForest.predict self X4 = Ok scores /\
    length scores = 4%nat /\
    Forall (fun s => (s = NaN \/ s = PInf \/ s = Fin 0) /\ ~ in_unit s) scores.
Proof.
  intros self.
  assert (IForest.psi self = Some (PyInt 1)) as Hpsi
    by (vm_compute; reflexivity).
  split; [exact Hpsi|].
  destruct (predict_zero_divisor (G := Z) self X4 (PyInt 1) Hpsi)
    as (Hc & sums & _ & Hp & Hl & Hall).
  - vm_compute. discriminate.
  - intros x _. vm_compute. repeat constructor.
  - split; [exact Hc|]. eexists. split; [exact Hp|].
    split; [now rewrite length_map | exact Hall].
Defined.

(** The run behind C10: a quarter of four rows is one row per tree, every
    tree is a single leaf of size 1, every sum is 0, and [predict]
    returns [nan] for each of the four rows. *)
Example predict_quarter_nan :
  IForest.predict
    (forest_of (IForest.fit (RS := Lcg.lcg) 100 forest_quarter X4 0%Z)) X4
  = Ok [NaN; NaN; NaN; NaN].
Proof.
  set (self := forest_of _).
  assert (IForest.trees self
          = [ITree.mk (Hfin 0) (ITreeLeaf 1); ITree.mk (Hfin 0) (ITreeLeaf 1);
             ITree.mk (Hfin 0) (ITreeLeaf 1)]) as Ht
    by (vm_compute; reflexivity).
  assert (IForest.psi self = Some (PyInt 1)) as Hpsi
    by (vm_compute; reflexivity).
  unfold IForest.predict. rewrite Ht, Hpsi.
  assert (forall s : R, s = 0%R -> IForest.normalise 3 (PyInt 1) s = NaN) as Hn.
  { intros s ->. unfold IForest.normalise. cbn [np_neg np_div].
    destruct (Req_dec_T (INR 3) 0) as [E | _].
    { pose proof (lt_0_INR 3 ltac:(lia)). lra. }
    cbn [np_div]. rewrite (adjustment_le_1 (PyInt 1)) by (cbn; discriminate).
    destruct (Req_dec_T 0 0) as [_ | N]; [|lra].
    destruct (Req_dec_T (- 0 / INR 3) 0) as [_ | N]; [reflexivity|].
    exfalso. apply N. unfold Rdiv. lra. }
  assert (_adjustment (PyInt (Z.of_nat 1)) = 0%R) as Hc
    by (apply adjustment_le_1; cbn; discriminate).
  cbn [IForest.sum_rows IForest.add_trees ITree.path_length_and_leaf_size
       ITree.walk ITree.root rows X4 rbind map length].
  rewrite Hc. cbn [INR].
  rewrite !Hn by lra. reflexivity.
Qed.

(* ================================================================== *)
(** * Further properties of the tree engine *)

(* ------------------------------------------------------------------ *)
(** ** The estimator grows with the sample size *)

(** From one row on, more rows give a larger expected path length:
    [_adjustment] is strictly increasing on the ints from 1. *)
Theorem adjustment_increasing (n m : Z) :
  (1 <= n)%Z -> (n < m)%Z ->
  (_adjustment (PyInt n) < _adjustment (PyInt m))%R.
Proof.
  intros Hn Hlt.
  pose proof euler_gamma_bounds as [G1 G2].
  pose proof ln_lt_2 as L2.
  assert (forall k : Z, (3 <= k)%Z -> (ln 2 <= ln (IZR k - 1))%R) as Hln.
  { intros k Hk. apply IZR_le in Hk.
    destruct (Req_dec (IZR k - 1) 2) as [-> | N]; [lra|].
    left. apply ln_increasing; lra. }
  destruct (Z.eq_dec n 1) as [-> | N1].
  - rewrite (adjustment_le_1 (PyInt 1)) by (cbn; discriminate).
    apply adjustment_pos. cbn [toQ]. change 2%Q with (inject_Z 2).
    rewrite <- Zle_Qle. lia.
  - destruct (Z.eq_dec n 2) as [-> | N2].
    + rewrite adjustment_int_2, adjustment_int_ge_3 by lia.
      pose proof (Hln m ltac:(lia)). lra.
    + rewrite !adjustment_int_ge_3 by lia.
      assert (ln (IZR n - 1) < ln (IZR m - 1))%R.
      { apply ln_increasing.
        - assert (3 <= IZR n)%R by (apply IZR_le; lia). lra.
        - apply IZR_lt in Hlt. lra. }
      lra.
Qed.

Lemma adjustment_increasing_witness :
  (_adjustment (PyInt 3) < _adjustment (PyInt 4))%R.
Proof. apply (adjustment_increasing 3 4); lia. Defined.

(* ------------------------------------------------------------------ *)
(** ** Shape of the grown tree *)

Lemma conserves_leaf_total (t : node) :
  forall X : list (list Q), conserves X t -> leaf_total t = length X.
Proof.
  induction t as [size | j v l IHl r IHr]; intros X H; cbn in *.
  - exact H.
  - destruct H as (Hlen & _ & Hl & Hr).
    rewrite (IHl _ Hl), (IHr _ Hr). exact Hlen.
Qed.

Lemma grown_conserves (h : height) (X : ndarray) (d : Z) (t : node) :
  grown h X d t -> conserves (rows X) t.
Proof.
  induction 1 as [X d Hl | X d j v l r Hh Hm Hj Hv _ IHl _ IHr];
    cbn [conserves]; [reflexivity|].
  split; [|split; [|split]]; try assumption.
  - apply filter_partition_length. apply goes_left_right.
  - apply filter_partition_perm. apply goes_left_right.
Qed.

Lemma grown_leaf_total (h : height) (X : ndarray) (d : Z) (t : node) :
  grown h X d t -> leaf_total t = nrows X.
Proof.
  intros H. apply grown_conserves in H.
  now apply conserves_leaf_total in H.
Qed.

Section ShapeFacts.
Context {G : Type} {RS : RandomState G}.

(** A leaf that holds two rows or more was cut off by the height limit:
    a query that returns such a leaf has walked exactly [h] steps. *)
Theorem large_leaf_at_height_limit (recursion_limit : nat) (h : Z)
    (X : ndarray) (g g' : G) (tree : ITree.t) (x : list Q) (p s : nat) :
  (0 <= h)%Z ->
  ITree.fit recursion_limit (Hfin h) X g = (Ok tree, g') ->
  ITree.path_length_and_leaf_size tree x = Ok (p, s) ->
  (2 <= s)%nat ->
  Z.of_nat p = h.
Proof.
  intros Hh Efit Eq Hs.
  apply tree_fit_inv in Efit. destruct Efit as [Eg _].
  apply grow_sound in Eg.
  unfold ITree.path_length_and_leaf_size in Eq.
  assert (forall d acc,
            grown (Hfin h) X d (ITree.root tree) -> (d <= h)%Z ->
            ITree.walk (ITree.root tree) x acc = Ok (p, s) ->
            (Z.of_nat p - Z.of_nat acc + d = h)%Z) as Hgen.
  { clear Eg Eq. generalize (ITree.root tree) as t. intros t d acc Hg.
    revert acc.
    induction Hg as [X d Hl | X d j v l r Hr Hm Hj Hv _ IHl _ IHr];
      intros acc Hd W; cbn in W.
    - injection W as <- <-.
      destruct Hl as [Hl | Hl]; [|lia].
      cbn in Hl. apply Z.leb_le in Hl. lia.
    - cbn in Hr. apply Z.leb_gt in Hr.
      destruct (compare j v x) as [[|] | e]; cbn in W; [| |discriminate].
      + specialize (IHr (S acc) ltac:(lia) W). lia.
      + specialize (IHl (S acc) ltac:(lia) W). lia. }
  specialize (Hgen 0%Z 0%nat Eg Hh Eq). lia.
Qed.

(** A row of the sample, asked back, reaches a leaf that counted it: the
    query does not raise and the leaf size is at least 1.  (The matrix is
    rectangular, as every numpy array is.) *)
Theorem training_row_reaches_its_leaf (recursion_limit : nat) (h : height)
    (X : ndarray) (g g' : G) (tree : ITree.t) (x : list Q) :
  rectangular X ->
  ITree.fit recursion_limit h X g = (Ok tree, g') ->
  In x (rows X) ->
  exists p s,
    ITree.path_length_and_leaf_size tree x = Ok (p, s) /\ (1 <= s)%nat.
Proof.
  intros Hrect Efit Hx.
  apply tree_fit_inv in Efit. destruct Efit as [Eg _].
  apply grow_sound in Eg.
  unfold ITree.path_length_and_leaf_size.
  enough (forall acc, exists p s,
            ITree.walk (ITree.root tree) x acc = Ok (p, s) /\ (1 <= s)%nat)
    as Hgen by apply Hgen.
  revert Hrect Hx Eg.
  generalize (ITree.root tree) as t. generalize 0%Z as d.
  intros d t Hrect Hx Hg.
  induction Hg as [X d Hl | X d j v l r Hr Hm Hj Hv _ IHl _ IHr];
    intros acc; cbn.
  - exists acc, (nrows X). split; [reflexivity|].
    revert Hx. unfold nrows. destruct (rows X) as [| y ys];
      [intros [] | intros _; cbn [length]; lia].
  - assert (length x = ncols X) as Hlen.
    { unfold rectangular in Hrect. rewrite Forall_forall in Hrect.
      now apply Hrect. }
    unfold compare.
    destruct (nth_error x j) as [w |] eqn:E.
    2:{ apply nth_error_None in E. lia. }
    assert (feature j x = w) as Hw.
    { unfold feature. now apply nth_error_nth. }
    cbn [rbind].
    assert (forall p, rectangular (select p X)) as Hsel.
    { intros q. unfold rectangular in *. cbn.
      rewrite Forall_forall in *. intros y Hy.
      apply filter_In in Hy. now apply Hrect. }
    destruct (Qle_bool v w) eqn:Ev.
    + apply IHr; [apply Hsel|].
      cbn. apply filter_In. split; [exact Hx|].
      unfold goes_right. now rewrite Hw.
    + apply IHl; [apply Hsel|].
      cbn. apply filter_In. split; [exact Hx|].
      rewrite goes_left_right. unfold goes_right. now rewrite Hw, Ev.
Qed.

End ShapeFacts.

Lemma large_leaf_at_height_limit_witness :
  exists tree g',
    ITree.fit (RS := Lcg.lcg) 10 (Hfin 2) X4 7%Z = (Ok tree, g') /\
    ITree.path_length_and_leaf_size tree [1; 1]%Q = Ok (2%nat, 2%nat) /\
    Z.of_nat 2 = 2%Z.
Proof.
  eexists. eexists. split; [vm_compute; reflexivity|].
  split; [vm_compute; reflexivity|].
  eapply (large_leaf_at_height_limit (RS := Lcg.lcg) 10 2 X4 7%Z _ _
            [1; 1]%Q 2 2).
  - lia.
  - vm_compute. reflexivity.
  - vm_compute. reflexivity.
  - lia.
Defined.

Lemma training_row_reaches_its_leaf_witness :
  exists tree g',
    ITree.fit (RS := Lcg.lcg) 10 (Hfin 2) X4 7%Z = (Ok tree, g') /\
    exists p s,
      ITree.path_length_and_leaf_size tree [100; 100]%Q = Ok (p, s) /\
      (1 <= s)%nat.
Proof.
  eexists. eexists. split; [vm_compute; reflexivity|].
  eapply (training_row_reaches_its_leaf (RS := Lcg.lcg) 10 (Hfin 2) X4 7%Z).
  - unfold rectangular. cbn. repeat constructor.
  - vm_compute. reflexivity.
  - cbn. auto.
Defined.

(* ------------------------------------------------------------------ *)
(** ** What [fit] leaves in the forest *)

Section FitFacts.
Context {G : Type} {RS : RandomState G}.

(** One iteration of the loop: the sample has [psi] rows, or all of them
    when there are fewer, and the tree accounts for each of them. *)
Lemma build_trees_shape (limit : nat) (X : ndarray) (k : Z) (h : height)
    (n : nat) :
  (0 <= k)%Z ->
  forall (acc ts : list ITree.t) (g g' : G),
  IForest.build_trees limit X (PyInt k) h n acc g = (Ok ts, g') ->
  exists new, ts = acc ++ new /\ length new = n /\
    Forall (fun tree =>
              ITree.height_limit tree = h /\
              leaf_total (ITree.root tree) = Nat.min (Z.to_nat k) (nrows X))
           new.
Proof.
  intros Hk. induction n as [| n IH]; intros acc ts g g' E.
  - cbn in E. injection E as <- <-. exists []. now rewrite app_nil_r.
  - cbn [IForest.build_trees] in E. unfold bind at 1 in E.
    unfold draw in E.
    destruct (permutation (nrows X) g) as [perm g1] eqn:Ep.
    unfold bind at 1 in E. cbn [IForest.py_slice ret] in E.
    unfold bind at 1 in E.
    destruct (ITree.fit limit h (take X (slice_to perm k)) g1)
      as [[tree | e] g3] eqn:Et; [|discriminate].
    apply IH in E. destruct E as (new & -> & Hl & Hf).
    exists (tree :: new). rewrite <- app_assoc. cbn.
    split; [reflexivity|]. split; [now rewrite Hl|].
    constructor; [|exact Hf].
    apply tree_fit_inv in Et. destruct Et as [Et Hh].
    split; [exact Hh|].
    apply grow_sound in Et. rewrite (grown_leaf_total _ _ _ _ Et).
    unfold nrows, take. cbn [rows]. rewrite length_map.
    unfold slice_to. assert ((0 <=? k)%Z = true) as -> by now apply Z.leb_le.
    rewrite length_firstn.
    pose proof (permutation_perm (nrows X) g) as Hp.
    rewrite Ep in Hp. cbn [fst] in Hp.
    apply Permutation_length in Hp. rewrite length_seq in Hp.
    unfold nrows in Hp. now rewrite Hp.
Qed.

(** A successful [fit] leaves exactly [num_trees] trees, each built with
    the height limit now stored in the forest; when the resolved [psi] is
    an int [k >= 0], each tree accounts for [min(k, m)] rows of the [m]
    given. *)
Theorem fit_builds_num_trees (limit : nat) (self self' : IForest.t G)
    (X : ndarray) (w w' : G) (k : Z) :
  IForest.fit limit self X w = (Ok tt, self', w') ->
  resolve_psi (IForest.subsample_size self) (nrows X) = PyInt k ->
  (0 <= k)%Z ->
  length (IForest.trees self') = IForest.num_trees self /\
  Forall (fun tree =>
            Some (ITree.height_limit tree) = IForest.height_limit self' /\
            leaf_total (ITree.root tree) = Nat.min (Z.to_nat k) (nrows X))
         (IForest.trees self').
Proof.
  intros E Hpsi Hk.
  pose proof (fit_height_limit limit self X w) as Hh.
  rewrite E in Hh. cbn [forest_of fst snd] in Hh.
  apply fit_ok_inv in E. cbv zeta in E. destruct E as (_ & g' & Hb).
  rewrite Hpsi in Hb, Hh.
  apply (build_trees_shape limit X k _ _ Hk) in Hb.
  destruct Hb as (new & Hnew & Hlen & Hall).
  cbn [app] in Hnew. rewrite Hnew. split; [exact Hlen|].
  rewrite Hh. eapply Forall_impl; [|exact Hall].
  intros tree [H1 H2]. split; [now rewrite H1 | exact H2].
Qed.

(** [fit] does not raise when the resolved [psi] is an int, the data has
    a column and the nesting allowed covers the height limit in use. *)
Theorem fit_succeeds (limit : nat) (self : IForest.t G) (X : ndarray)
    (w : G) (k : Z) :
  resolve_psi (IForest.subsample_size self) (nrows X) = PyInt k ->
  (0 < ncols X)%nat ->
  fuel_suffices limit 0
    match IForest.height_limit self with
    | None => np_ceil_log2 (PyInt k)
    | Some h => h
    end ->
  outcome_of (IForest.fit limit self X w) = Ok tt.
Proof.
  intros Hpsi Hn Hf. rewrite fit_eq. cbv zeta. rewrite Hpsi.
  set (h := match IForest.height_limit self with
            | None => np_ceil_log2 (PyInt k)
            | Some h => h
            end) in *.
  assert (forall n acc g, exists ts g',
            IForest.build_trees limit X (PyInt k) h n acc g = (Ok ts, g'))
    as Htot.
  { induction n as [| n IH]; intros acc g; cbn [IForest.build_trees].
    - unfold ret. eauto.
    - unfold bind at 1, draw.
      destruct (permutation (nrows X) g) as [perm g1].
      unfold bind at 1. cbn [IForest.py_slice ret].
      unfold bind at 1, ITree.fit, bind.
      destruct (grow_total limit (take X (slice_to perm k)) 0%Z h g1 Hn Hf)
        as (t & g2 & ->).
      cbn [ret]. apply IH. }
  destruct (Htot (IForest.num_trees self) []
              (IForest.maybe_default_random_state
                 (IForest.random_state self) w)) as (ts & g' & ->).
  reflexivity.
Qed.

End FitFacts.

Lemma fit_builds_num_trees_witness :
  exists self' w',
    IForest.fit (RS := Lcg.lcg) 100 forest_seeded X4 0%Z = (Ok tt, self', w') /\
    length (IForest.trees self') = 3%nat /\
    Forall (fun tree =>
              Some (ITree.height_limit tree) = IForest.height_limit self' /\
              leaf_total (ITree.root tree) = 4%nat)
           (IForest.trees self').
Proof.
  eexists. eexists. split; [vm_compute; reflexivity|].
  eapply (fit_builds_num_trees (RS := Lcg.lcg) 100 forest_seeded _ X4 0%Z _ 4).
  - vm_compute. reflexivity.
  - vm_compute. reflexivity.
  - lia.
Defined.

Lemma fit_succeeds_witness :
  outcome_of (IForest.fit (RS := Lcg.lcg) 100 forest_seeded X4 0%Z) = Ok tt.
Proof.
  apply (fit_succeeds (RS := Lcg.lcg) 100 forest_seeded X4 0%Z 4).
  - vm_compute. reflexivity.
  - cbn. lia.
  - cbn. lia.
Defined.

(* ------------------------------------------------------------------ *)
(** ** Outcomes of [predict] *)

Lemma walk_raises_index_error (t : node) :
  forall (x : list Q) (acc : nat) (e : exn),
  ITree.walk t x acc = Raise e -> e = IndexError.
Proof.
  induction t as [size | j v l IHl r IHr]; intros x acc e E; cbn in E.
  - discriminate.
  - unfold compare in E. destruct (nth_error x j) as [w |]; cbn in E.
    + destruct (Qle_bool v w); eauto.
    + now injection E as <-.
Qed.

Lemma add_trees_raises_index_error (trees : list ITree.t) :
  forall (x : list Q) (acc : R) (e : exn),
  IForest.add_trees trees x acc = Raise e -> e = IndexError.
Proof.
  induction trees as [| tree trees IH]; intros x acc e E; cbn in E.
  - discriminate.
  - unfold ITree.path_length_and_leaf_size in E.
    destruct (ITree.walk (ITree.root tree) x 0) as [[p s] | e'] eqn:W;
      cbn in E.
    + eauto.
    + injection E as <-. eapply walk_raises_index_error; exact W.
Qed.

Lemma sum_rows_outcomes (trees : list ITree.t) (X : list (list Q)) :
  (forall sums, IForest.sum_rows trees X = Ok sums -> length sums = length X) /\
  (forall e, IForest.sum_rows trees X = Raise e -> e = IndexError).
Proof.
  induction X as [| x X [IHok IHerr]]; cbn.
  - split; [intros sums E; now injection E as <- | discriminate].
  - destruct (IForest.add_trees trees x 0) as [s | e'] eqn:Ea; cbn.
    + destruct (IForest.sum_rows trees X) as [ss | e'']; cbn.
      * split; [|discriminate]. intros sums E. injection E as <-.
        cbn. f_equal. now apply IHok.
      * split; [discriminate|]. intros e E. injection E as <-.
        now apply IHerr.
    + split; [discriminate|]. intros e E. injection E as <-.
      eapply add_trees_raises_index_error; exact Ea.
Qed.

Lemma sum_rows_no_trees (X : list (list Q)) :
  IForest.sum_rows [] X = Ok (map (fun _ => 0%R) X).
Proof.
  induction X as [| x X IH]; cbn; [reflexivity|]. now rewrite IH.
Qed.

(** [predict] on a forest that was never fitted raises [AttributeError]
    ([self.psi] does not exist yet), whatever the query, even an empty
    one. *)
Theorem predict_unfitted_raises {G : Type} (num_trees : nat)
    (subsample_size : pynum) (height_limit : option height)
    (random_state : IForest.random_state_arg G) (X : ndarray) :
  IForest.predict
    (IForest.init num_trees subsample_size height_limit random_state) X
  = Raise AttributeError.
Proof.
  unfold IForest.predict, IForest.init. cbn [IForest.trees IForest.psi].
  now rewrite sum_rows_no_trees.
Qed.

(** When [predict] returns, it returns one score per query row; when it
    raises, the exception is [IndexError] (a row lacks a feature some
    tree splits on) or [AttributeError] (the forest has no [psi]). *)
Theorem predict_outcomes {G : Type} (self : IForest.t G) (X : ndarray) :
  (forall scores,
     IForest.predict self X = Ok scores -> length scores = nrows X) /\
  (forall e,
     IForest.predict self X = Raise e ->
     e = IndexError \/ (e = AttributeError /\ IForest.psi self = None)).
Proof.
  unfold IForest.predict.
  destruct (sum_rows_outcomes (IForest.trees self) (rows X)) as [Hok Herr].
  destruct (IForest.sum_rows (IForest.trees self) (rows X)) as [sums | e'];
    cbn [rbind].
  - destruct (IForest.psi self) as [psi |].
    + split; [|discriminate]. intros scores E. injection E as <-.
      rewrite length_map. now apply Hok.
    + split; [discriminate|]. intros e E. injection E as <-. now right.
  - split; [discriminate|]. intros e E. injection E as <-.
    left. now apply Herr.
Qed.

Lemma walk_ignores_extra_columns (t : node) :
  forall (x extra : list Q) (acc : nat),
  attrs_below (length x) t ->
  ITree.walk t (x ++ extra) acc = ITree.walk t x acc.
Proof.
  induction t as [size | j v l IHl r IHr]; intros x extra acc W; cbn.
  - reflexivity.
  - destruct W as (Hj & Wl & Wr). unfold compare.
    rewrite nth_error_app1 by exact Hj.
    destruct (nth_error x j) as [w |]; cbn; [|reflexivity].
    destruct (Qle_bool v w); auto.
Qed.

Lemma add_trees_ignores_extra_columns (trees : list ITree.t)
    (x extra : list Q) :
  Forall (fun tree => attrs_below (length x) (ITree.root tree)) trees ->
  forall acc : R,
  IForest.add_trees trees (x ++ extra) acc = IForest.add_trees trees x acc.
Proof.
  induction 1 as [| tree trees Ht _ IH]; intros acc;
    cbn [IForest.add_trees]; [reflexivity|].
  unfold ITree.path_length_and_leaf_size.
  rewrite walk_ignores_extra_columns by exact Ht.
  destruct (ITree.walk (ITree.root tree) x 0) as [[p s] | e]; cbn [rbind];
    [apply IH | reflexivity].
Qed.

Lemma sum_rows_ignores_extra_columns (trees : list ITree.t)
    (extra : list Q -> list Q) (X : list (list Q)) :
  (forall x, In x X ->
     Forall (fun tree => attrs_below (length x) (ITree.root tree)) trees) ->
  IForest.sum_rows trees (map (fun x => x ++ extra x) X)
  = IForest.sum_rows trees X.
Proof.
  induction X as [| x xs IH]; intros Hw; cbn [map IForest.sum_rows];
    [reflexivity|].
  rewrite IH by (intros y Hy; apply Hw; now right).
  rewrite add_trees_ignores_extra_columns by (apply Hw; now left).
  reflexivity.
Qed.

(** [predict] never looks at the column count: when every query row has
    the features the trees split on, appending further columns to the
    rows changes nothing in the result. *)
Theorem predict_ignores_extra_columns {G : Type} (self : IForest.t G)
    (X : ndarray) (extra : list Q -> list Q) (n' : nat) :
  (forall x, In x (rows X) ->
     Forall (fun tree => attrs_below (length x) (ITree.root tree))
            (IForest.trees self)) ->
  IForest.predict self
    {| ncols := n'; rows := map (fun x => x ++ extra x) (rows X) |}
  = IForest.predict self X.
Proof.
  intros Hw. unfold IForest.predict. cbn [rows].
  now rewrite sum_rows_ignores_extra_columns.
Qed.

(** Line 87 orders the rows by their summed path lengths: with a tree in
    the forest and [psi >= 2], a larger sum gives a strictly smaller
    score. *)
Theorem score_decreases_with_path_length (num : nat) (psi : pynum)
    (s1 s2 : R) :
  (0 < num)%nat ->
  (2 <= toQ psi)%Q ->
  (s1 < s2)%R ->
  exists r1 r2,
    IForest.normalise num psi s1 = Fin r1 /\
    IForest.normalise num psi s2 = Fin r2 /\
    (r2 < r1)%R.
Proof.
  intros Hn Hpsi Hlt.
  pose proof (adjustment_pos psi Hpsi) as Hc.
  rewrite !normalise_regular by assumption.
  eexists. eexists. split; [reflexivity|]. split; [reflexivity|].
  unfold Rpower. apply exp_increasing.
  pose proof ln_lt_2 as L2.
  apply lt_0_INR in Hn.
  apply Rmult_lt_compat_r; [lra|].
  apply Ropp_lt_contravar.
  unfold Rdiv. apply Rmult_lt_compat_r; [now apply Rinv_0_lt_compat|].
  apply Rmult_lt_compat_r; [now apply Rinv_0_lt_compat | exact Hlt].
Qed.

(** The score is above one half exactly when the mean adjusted path
    length is below [c(psi)], and equal to one half when they
    coincide. *)
Theorem score_half_threshold (num : nat) (psi : pynum) (s : R) :
  (0 < num)%nat ->
  (2 <= toQ psi)%Q ->
  exists r,
    IForest.normalise num psi s = Fin r /\
    ((1 / 2 < r)%R <-> (s / INR num < _adjustment psi)%R) /\
    (r = (1 / 2)%R <-> (s / INR num)%R = _adjustment psi).
Proof.
  intros Hn Hpsi.
  pose proof (adjustment_pos psi Hpsi) as Hc.
  rewrite normalise_regular by assumption.
  eexists. split; [reflexivity|].
  set (y := (s / INR num / _adjustment psi)%R).
  assert ((1 / 2)%R = Rpower 2 (Ropp 1)) as Hhalf.
  { rewrite Rpower_Ropp, Rpower_1 by lra. lra. }
  pose proof ln_lt_2 as L2.
  assert (forall a b, (a < b)%R -> (Rpower 2 a < Rpower 2 b)%R) as Hmono.
  { intros a b Hab. unfold Rpower. apply exp_increasing.
    apply Rmult_lt_compat_r; lra. }
  assert ((y < 1)%R <-> (s / INR num < _adjustment psi)%R) as Hy1.
  { unfold y. split; intros H.
    - apply (Rmult_lt_compat_r (_adjustment psi)) in H; [|exact Hc].
      unfold Rdiv in H. rewrite Rmult_assoc, Rinv_l in H by lra. lra.
    - apply (Rmult_lt_reg_r (_adjustment psi)); [exact Hc|].
      unfold Rdiv. rewrite Rmult_assoc, Rinv_l by lra. lra. }
  assert (y = 1%R <-> (s / INR num)%R = _adjustment psi) as Hy2.
  { unfold y. split; intros H.
    - apply (f_equal (fun z => z * _adjustment psi)%R) in H.
      unfold Rdiv in H. rewrite Rmult_assoc, Rinv_l in H by lra. lra.
    - rewrite H. field. lra. }
  rewrite Hhalf. split.
  - rewrite <- Hy1. split; intros H.
    + destruct (Rlt_dec y 1) as [L | L]; [exact L|]. exfalso.
      destruct (Req_dec y 1) as [E | N].
      * rewrite E in H. lra.
      * pose proof (Hmono (- y)%R (Ropp 1) ltac:(lra)). lra.
    + apply Hmono. lra.
  - rewrite <- Hy2. split; intros H.
    + destruct (Rtotal_order y 1) as [L | [E | L]]; [|exact E|]; exfalso.
      * pose proof (Hmono (Ropp 1) (- y)%R ltac:(lra)). lra.
      * pose proof (Hmono (- y)%R (Ropp 1) ltac:(lra)). lra.
    + now rewrite H.
Qed.

Lemma predict_outcomes_witness :
  length [NaN; NaN; NaN; NaN] = nrows X4.
Proof.
  destruct (predict_outcomes
              (forest_of (IForest.fit (RS := Lcg.lcg) 100 forest_quarter X4 0%Z))
              X4) as [H _].
  apply H. apply predict_quarter_nan.
Defined.

Lemma predict_ignores_extra_columns_witness :
  let self := forest_of (IForest.fit (RS := Lcg.lcg) 100 forest_seeded X4 0%Z) in
  IForest.predict self
    {| ncols := 3; rows := map (fun x => x ++ [7%Q]) (rows X4) |}
  = IForest.predict self X4.
Proof.
  intros self.
  apply (predict_ignores_extra_columns self X4 (fun _ => [7%Q]) 3).
  intros x Hx. cbn in Hx.
  destruct Hx as [<- | [<- | [<- | [<- | []]]]];
    vm_compute; repeat constructor.
Defined.

Lemma score_decreases_with_path_length_witness :
  exists r1 r2,
    IForest.normalise 3 (PyInt 4) 1 = Fin r1 /\
    IForest.normalise 3 (PyInt 4) 2 = Fin r2 /\
    (r2 < r1)%R.
Proof.
  apply (score_decreases_with_path_length 3 (PyInt 4) 1 2).
  - lia.
  - unfold Qle. cbn. lia.
  - lra.
Defined.

Lemma score_half_threshold_witness :
  exists r,
    IForest.normalise 3 (PyInt 4) 1 = Fin r /\
    ((1 / 2 < r)%R <-> (1 / INR 3 < _adjustment (PyInt 4))%R) /\
    (r = (1 / 2)%R <-> (1 / INR 3)%R = _adjustment (PyInt 4)).
Proof.
  apply (score_half_threshold 3 (PyInt 4) 1).
  - lia.
  - unfold Qle. cbn. lia.
Defined.

(* ================================================================== *)
(** * The benchmark's samplers *)

Lemma update_spec (l : list Z) :
  forall (k : nat) (v w : Z),
  nth_error l k = Some v ->
  length (firstn k l ++ w :: skipn (S k) l) = length l /\
  sum_Z (firstn k l ++ w :: skipn (S k) l) = (sum_Z l - v + w)%Z /\
  forall j, nth_error (firstn k l ++ w :: skipn (S k) l) j
            = if (j =? k)%nat then Some w else nth_error l j.
Proof.
  induction l as [| x l IH]; intros k v w Hk; [destruct k; discriminate|].
  destruct k as [| k]; cbn in Hk.
  - injection Hk as ->. cbn. split; [reflexivity|]. split; [lia|].
    intros [| j]; reflexivity.
  - destruct (IH k v w Hk) as (Hlen & Hsum & Hnth).
    change (firstn (S k) (x :: l) ++ w :: skipn (S (S k)) (x :: l))
      with (x :: (firstn k l ++ w :: skipn (S k) l)).
    set (l' := firstn k l ++ w :: skipn (S k) l) in *.
    split; [cbn [length]; now rewrite Hlen|]. split.
    + change (sum_Z (x :: l')) with (x + sum_Z l')%Z.
      change (sum_Z (x :: l)) with (x + sum_Z l)%Z. lia.
    + intros [| j]; [reflexivity|]. cbn [nth_error Nat.eqb]. apply Hnth.
Qed.

Lemma add_at_spec (l : list Z) (k : nat) (d : Z) :
  (k < length l)%nat ->
  exists l', add_at l k d = Ok l' /\
    length l' = length l /\
    sum_Z l' = (sum_Z l + d)%Z /\
    forall j v, nth_error l j = Some v ->
      nth_error l' j = Some (v + if (j =? k)%nat then d else 0)%Z.
Proof.
  intros Hk. unfold add_at.
  destruct (nth_error l k) as [v |] eqn:E.
  2:{ apply nth_error_None in E. lia. }
  destruct (update_spec l k v (v + d)%Z E) as (Hlen & Hsum & Hnth).
  eexists. split; [reflexivity|]. split; [exact Hlen|]. split; [lia|].
  intros j u Hj. rewrite Hnth. destruct (Nat.eqb_spec j k) as [-> | N].
  - rewrite E in Hj. now injection Hj as ->.
  - rewrite Hj. f_equal. lia.
Qed.

(** The loop adds one to each of the classes [i_ .. i_ + steps - 1], and
    one more to the last class when [i] is among them. *)
Lemma spread_spec (i steps : nat) :
  forall (i_ : nat) (l : list Z),
  (i_ + steps < length l)%nat ->
  let hit := ((i_ <=? i) && (i <? i_ + steps))%nat in
  exists l', spread i i_ steps l = Ok l' /\
    length l' = length l /\
    sum_Z l' = (sum_Z l + Z.of_nat steps + Z.b2z hit)%Z /\
    forall j v, nth_error l j = Some v ->
      nth_error l' j
      = Some (v + Z.b2z ((i_ <=? j) && (j <? i_ + steps))%nat
                + Z.b2z ((j =? length l - 1)%nat && hit))%Z.
Proof.
  induction steps as [| steps IH]; intros i_ l Hlen hit; subst hit.
  - exists l. cbn [spread]. split; [reflexivity|]. split; [reflexivity|].
    split; [lia|]. intros j v Hj. rewrite Hj. f_equal. lia.
  - cbn [spread].
    assert (exists l1,
              (if (i =? i_)%nat then add_at l (length l - 1) 1 else Ok l) = Ok l1 /\
              length l1 = length l /\
              sum_Z l1 = (sum_Z l + Z.b2z (i =? i_)%nat)%Z /\
              forall j v, nth_error l j = Some v ->
                nth_error l1 j
                = Some (v + Z.b2z ((j =? length l - 1) && (i =? i_))%nat)%Z)
      as (l1 & -> & Hl1 & Hs1 & Hn1).
    { destruct (Nat.eqb_spec i i_) as [-> | N].
      - destruct (add_at_spec l (length l - 1) 1 ltac:(lia))
          as (l1 & E1 & Hl1 & Hs1 & Hn1).
        exists l1. split; [exact E1|]. split; [exact Hl1|].
        split; [cbn [Z.b2z]; lia|]. intros j v Hj. rewrite (Hn1 j v Hj).
        f_equal. destruct (j =? length l - 1)%nat; reflexivity.
      - exists l. split; [reflexivity|]. split; [reflexivity|].
        split; [cbn [Z.b2z]; lia|]. intros j v Hj. rewrite Hj. f_equal.
        rewrite andb_false_r. cbn [Z.b2z]. lia. }
    cbn [rbind].
    destruct (add_at_spec l1 i_ 1 ltac:(lia)) as (l2 & -> & Hl2 & Hs2 & Hn2).
    cbn [rbind].
    destruct (IH (S i_) l2 ltac:(lia)) as (l3 & -> & Hl3 & Hs3 & Hn3).
    exists l3. split; [reflexivity|]. split; [lia|].
    cbv zeta in Hs3, Hn3. split.
    + rewrite Hs3, Hs2, Hs1. lia.
    + intros j v Hj.
      rewrite (Hn3 j _ (Hn2 j _ (Hn1 j v Hj))). f_equal.
      rewrite Hl2, Hl1.
      assert ((if (j =? i_)%nat then 1 else 0)%Z = Z.b2z (j =? i_)%nat) as ->
        by (destruct (j =? i_)%nat; reflexivity).
      lia.
Qed.

(** The counts in closed form: with [q = n_normal / 9] and
    [r = n_normal mod 9], class [j] gets [q], one more when [j < r], and
    the last class one more when [i < r]; then class [i] is overwritten. *)
Lemma stratified_select_closed_form (n_normal n_anomaly : Z) (i : nat) :
  (i < 10)%nat ->
  let q := (n_normal / 9)%Z in
  let r := Z.to_nat (n_normal mod 9) in
  exists select,
    stratified_select n_normal n_anomaly i = Ok select /\
    length select = 10%nat /\
    nth_error select i = Some n_anomaly /\
    sum_Z select
    = (10 * q + Z.of_nat r + Z.b2z ((0 <=? i) && (i <? 0 + r))%nat
       - (q + Z.b2z ((0 <=? i) && (i <? 0 + r))%nat
            + Z.b2z ((i =? 10 - 1)%nat && ((0 <=? i) && (i <? 0 + r))%nat))
       + n_anomaly)%Z /\
    forall j c, j <> i -> nth_error select j = Some c ->
      c = (q + Z.b2z ((0 <=? j) && (j <? 0 + r))%nat
             + Z.b2z ((j =? 10 - 1)%nat && ((0 <=? i) && (i <? 0 + r))%nat))%Z.
Proof.
  intros Hi q r.
  pose proof (Z.mod_pos_bound n_normal 9 ltac:(lia)) as Hr.
  unfold stratified_select. fold q. fold r.
  assert (r < 9)%nat as Hr9 by (unfold r; lia).
  assert (sum_Z (repeat q 10) = (10 * q)%Z) as Hsum0
    by (unfold sum_Z; cbn [repeat fold_right]; lia).
  assert (forall j v, nth_error (repeat q 10) j = Some v -> v = q) as Hrep.
  { intros j v Hj. apply nth_error_In in Hj. now apply repeat_spec in Hj. }
  destruct (spread_spec i r 0 (repeat q 10)) as (l1 & -> & Hl1 & Hs1 & Hn1).
  { rewrite repeat_length. lia. }
  cbv zeta in Hs1, Hn1. rewrite repeat_length in Hl1, Hn1.
  cbn [rbind]. unfold set_at.
  destruct (nth_error (repeat q 10) i) as [v0 |] eqn:E0.
  2:{ apply nth_error_None in E0. rewrite repeat_length in E0. lia. }
  pose proof (Hrep _ _ E0) as ->.
  pose proof (Hn1 i q E0) as Ei. rewrite Ei.
  destruct (update_spec l1 i _ n_anomaly Ei) as (Hlen & Hsum & Hnth).
  eexists. split; [reflexivity|].
  split; [lia|]. split; [now rewrite Hnth, Nat.eqb_refl|]. split.
  - rewrite Hsum, Hs1, Hsum0. reflexivity.
  - intros j c Hj Hc. rewrite Hnth in Hc.
    destruct (Nat.eqb_spec j i) as [-> | _]; [congruence|].
    destruct (nth_error (repeat q 10) j) as [v |] eqn:Ej.
    2:{ apply nth_error_None in Ej. rewrite repeat_length in Ej.
        assert (nth_error l1 j = None) by (apply nth_error_None; lia).
        congruence. }
    pose proof (Hrep _ _ Ej) as ->.
    rewrite (Hn1 j q Ej) in Hc. now injection Hc as <-.
Qed.

(** With digit [i] as the anomaly, the ten counts are: [n_anomaly] for
    class [i]; for the nine other classes [n_normal / 9] or one more, and
    together exactly [n_normal].  So the sample asked for has
    [n_normal + n_anomaly] rows. *)
Theorem stratified_select_counts (n_normal n_anomaly : Z) (i : nat) :
  (i < 10)%nat ->
  exists select,
    stratified_select n_normal n_anomaly i = Ok select /\
    length select = 10%nat /\
    nth_error select i = Some n_anomaly /\
    sum_Z select = (n_normal + n_anomaly)%Z /\
    forall j c, j <> i -> nth_error select j = Some c ->
      (n_normal / 9 <= c <= n_normal / 9 + 1)%Z.
Proof.
  intros Hi.
  destruct (stratified_select_closed_form n_normal n_anomaly i Hi)
    as (select & E & Hlen & Hnth & Hsum & Hother).
  pose proof (Z.div_mod n_normal 9 ltac:(lia)) as Hdm.
  pose proof (Z.mod_pos_bound n_normal 9 ltac:(lia)) as Hr.
  exists select. split; [exact E|]. split; [exact Hlen|].
  split; [exact Hnth|]. split.
  - rewrite Hsum. lia.
  - intros j c Hj Hc. rewrite (Hother j c Hj Hc).
    assert (j < 10)%nat.
    { rewrite <- Hlen. apply nth_error_Some. congruence. }
    lia.
Qed.

Lemma stratified_select_counts_witness :
  exists select,
    stratified_select 950 50 3 = Ok select /\
    length select = 10%nat /\
    nth_error select 3 = Some 50%Z /\
    sum_Z select = 1000%Z /\
    forall j c, j <> 3%nat -> nth_error select j = Some c ->
      (105 <= c <= 106)%Z.
Proof.
  apply (stratified_select_counts 950 50 3). lia.
Defined.

Lemma map_nth_seq {A} (l : list A) (d : A) :
  map (fun p => nth p l d) (seq 0 (length l)) = l.
Proof.
  induction l as [| x l IH]; [reflexivity|].
  cbn [length seq map nth]. f_equal.
  rewrite <- seq_shift, map_map. exact IH.
Qed.

Lemma filter_length_perm {A} (p : A -> bool) (l l' : list A) :
  Permutation l l' -> length (filter p l) = length (filter p l').
Proof.
  induction 1 as [| x l l' _ IH | x y l | l l' l'' _ IH1 _ IH2]; cbn.
  - reflexivity.
  - destruct (p x); cbn; now rewrite IH.
  - destruct (p x), (p y); reflexivity.
  - now rewrite IH1.
Qed.

Section SamplerFacts.
Context {G : Type} {RC : RandomChoice G}.
Context {A : Type} (eqb : A -> A -> bool).
Hypothesis eqb_eq : forall a b, eqb a b = true <-> a = b.

Lemma has_label_bound (y : list A) (c : A) (i : nat) :
  has_label eqb y c i = true -> (i < length y)%nat.
Proof.
  unfold has_label. destruct (nth_error y i) eqn:E; [|discriminate].
  intros _. apply nth_error_Some. congruence.
Qed.

Lemma has_label_unique (y : list A) (c c' : A) (i : nat) :
  has_label eqb y c i = true -> has_label eqb y c' i = true -> c = c'.
Proof.
  unfold has_label. destruct (nth_error y i) as [v |]; [|discriminate].
  intros H1 H2. apply eqb_eq in H1, H2. congruence.
Qed.

Lemma py_choice_inv (a : list nat) (num : Z) (r : bool) (g g' : G)
    (res : list nat) :
  py_choice a num r g = (Ok res, g') ->
  (0 <= num)%Z /\ Z.of_nat (length res) = num /\ incl res a.
Proof.
  unfold py_choice. destruct (Z.ltb_spec num 0) as [L | L]; [discriminate|].
  intros E. split; [exact L|]. split.
  - apply choice_length in E. lia.
  - eapply choice_members; exact E.
Qed.

(** What the loop over the classes has collected. *)
Lemma choose_per_class_inv (y : list A) (r : bool) (pairs : list (Z * A)) :
  forall (g g' : G) (parts : list (list nat)),
  choose_per_class eqb pairs y r g = (Ok parts, g') ->
  Forall2 (fun pair part =>
             (0 <= fst pair)%Z /\
             Z.of_nat (length part) = fst pair /\
             Forall (fun i => has_label eqb y (snd pair) i = true) part)
          pairs parts.
Proof.
  induction pairs as [| [num c] pairs IH]; intros g g' parts E;
    cbn [choose_per_class] in E.
  - injection E as <- _. constructor.
  - unfold bind at 1 in E.
    destruct (py_choice (np_where_eq eqb y c) num r g)
      as [[picked | e] g1] eqn:Ep; [|discriminate].
    unfold bind at 1 in E.
    destruct (choose_per_class eqb pairs y r g1) as [[others | e] g2] eqn:Eo;
      [|discriminate].
    cbn in E. injection E as <- _.
    apply py_choice_inv in Ep. destruct Ep as (H0 & Hl & Hin).
    constructor; [|eapply IH; exact Eo].
    cbn [fst snd]. split; [exact H0|]. split; [exact Hl|].
    apply Forall_forall. intros i Hi. apply Hin in Hi.
    unfold np_where_eq in Hi. apply filter_In in Hi. tauto.
Qed.

Lemma parts_total (y : list A) (pairs : list (Z * A))
    (parts : list (list nat)) :
  Forall2 (fun pair part =>
             (0 <= fst pair)%Z /\
             Z.of_nat (length part) = fst pair /\
             Forall (fun i => has_label eqb y (snd pair) i = true) part)
          pairs parts ->
  Z.of_nat (length (concat parts)) = sum_Z (map fst pairs) /\
  Forall (fun i => i < length y)%nat (concat parts) /\
  Forall (fun num => 0 <= num)%Z (map fst pairs) /\
  (NoDup (map snd pairs) ->
   forall num c, In (num, c) pairs ->
     Z.of_nat (count_class eqb y c (concat parts)) = num).
Proof.
  induction 1 as [| [num c] part pairs parts (H0 & Hl & Hall) Hrest IH].
  - cbn. repeat split; try constructor. intros _ num c [].
  - destruct IH as (IHlen & IHb & IHpos & IHcount).
    cbn [fst snd] in *. cbn [concat map].
    split; [|split; [|split]].
    + rewrite length_app.
      change (sum_Z (fst (num, c) :: map fst pairs))
        with (num + sum_Z (map fst pairs))%Z. lia.
    + apply Forall_app. split; [|exact IHb].
      eapply Forall_impl; [|exact Hall].
      intros i Hi. eapply has_label_bound; exact Hi.
    + constructor; assumption.
    + intros Hnd num' c' Hin. inversion Hnd as [| ? ? Hnotin Hnd']; subst.
      unfold count_class. rewrite filter_app, length_app.
      fold (count_class eqb y c' (concat parts)).
      destruct Hin as [Heq | Hin].
      * injection Heq as <- <-.
        (* the part of this class counts in full, the others not at all *)
        assert (filter (has_label eqb y c) part = part) as ->.
        { apply filter_all. intros i Hi.
          rewrite Forall_forall in Hall. now apply Hall. }
        assert (count_class eqb y c (concat parts) = 0%nat) as ->; [|lia].
        unfold count_class.
        assert (filter (has_label eqb y c) (concat parts) = []) as ->;
          [|reflexivity].
        apply filter_none. intros i Hi.
        destruct (has_label eqb y c i) eqn:E; [|reflexivity].
        exfalso. apply Hnotin.
        apply in_concat in Hi. destruct Hi as (part' & Hp' & Hi').
        clear - Hrest Hp' Hi' E eqb_eq.
        induction Hrest as [| [n1 c1] p1 ps qs (_ & _ & Hall1) _ IH];
          [contradiction|].
        destruct Hp' as [<- | Hp'].
        -- left. cbn. rewrite Forall_forall in Hall1.
           eapply has_label_unique; [apply Hall1; exact Hi' | exact E].
        -- right. now apply IH.
      * assert (filter (has_label eqb y c') part = []) as ->.
        { apply filter_none. intros i Hi.
          destruct (has_label eqb y c' i) eqn:E; [|reflexivity].
          exfalso. apply Hnotin.
          rewrite Forall_forall in Hall.
          rewrite (has_label_unique y c c' i (Hall i Hi) E).
          apply in_map_iff. exists (num', c'). now split. }
        cbn [length Nat.add]. now apply IHcount.
Qed.

(** The indices returned are, in some order, what the loop over the
    classes collected. *)
Lemma subsample_indices_inv (classes y : list A) (select : list Z)
    (replace : bool) (g g' : G) (res : list nat) :
  get_subsample_indices eqb classes y select replace g = (Ok res, g') ->
  exists parts,
    Forall2 (fun pair part =>
               (0 <= fst pair)%Z /\
               Z.of_nat (length part) = fst pair /\
               Forall (fun i => has_label eqb y (snd pair) i = true) part)
            (combine select classes) parts /\
    Permutation res (concat parts).
Proof.
  intros E. unfold get_subsample_indices in E.
  set (pairs := combine select classes) in *.
  unfold bind at 1 in E.
  destruct (choose_per_class eqb pairs y replace g) as [[parts | e] g1] eqn:Ec;
    [|discriminate].
  unfold bind at 1 in E.
  assert (exists g2, np_concatenate parts g1 = (Ok (concat parts), g2)
                     \/ np_concatenate parts g1 = (@Raise (list nat) ValueError, g2))
    as (g2 & [En | En]).
  { exists g1. destruct parts; [right | left]; reflexivity. }
  2:{ rewrite En in E. discriminate. }
  rewrite En in E. unfold bind at 1 in E.
  destruct (choice (seq 0 (length (concat parts))) (length (concat parts))
              false g2) as [[order | e] g3] eqn:Eo; [|discriminate].
  cbn in E. injection E as <- _.
  exists parts. split; [eapply choose_per_class_inv; exact Ec|].
  (* the last draw is a permutation of the positions *)
  assert (Permutation order (seq 0 (length (concat parts)))) as Hperm.
  { pose proof (choice_length _ _ _ _ _ _ Eo) as Hlen.
    destruct (choice_distinct _ _ _ _ _ Eo) as (rest & Hp).
    pose proof (Permutation_length Hp) as Hl.
    rewrite length_app, length_seq in Hl.
    destruct rest; [|cbn in Hl; lia]. now rewrite app_nil_r in Hp. }
  pose proof (Permutation_map (fun p => nth p (concat parts) 0%nat) Hperm)
    as Hm.
  now rewrite map_nth_seq in Hm.
Qed.

Lemma counts_of_parts (y : list A) (pairs : list (Z * A))
    (parts : list (list nat)) (res : list nat) :
  Forall2 (fun pair part =>
             (0 <= fst pair)%Z /\
             Z.of_nat (length part) = fst pair /\
             Forall (fun i => has_label eqb y (snd pair) i = true) part)
          pairs parts ->
  Permutation res (concat parts) ->
  Z.of_nat (length res) = sum_Z (map fst pairs) /\
  Forall (fun i => i < length y)%nat res /\
  Forall (fun num => 0 <= num)%Z (map fst pairs) /\
  (NoDup (map snd pairs) ->
   forall num c, In (num, c) pairs ->
     Z.of_nat (count_class eqb y c res) = num).
Proof.
  intros Hparts Hres. apply parts_total in Hparts.
  destruct Hparts as (Hlen & Hb & Hpos & Hcount).
  split; [|split; [|split]].
  - rewrite (Permutation_length Hres). exact Hlen.
  - eapply Permutation_Forall; [symmetry; exact Hres | exact Hb].
  - exact Hpos.
  - intros Hnd num c Hin. unfold count_class.
    rewrite (filter_length_perm _ _ _ Hres). now apply Hcount.
Qed.

(** [get_subsample_indices] returns as many indices as [select] asks for
    (over the classes it is zipped with), all of them positions of [y],
    and, for distinct classes, exactly [select[k]] indices whose label is
    [classes[k]]; it returns only when no count is negative. *)
Theorem subsample_indices_counts (classes y : list A) (select : list Z)
    (replace : bool) (g g' : G) (res : list nat) :
  get_subsample_indices eqb classes y select replace g = (Ok res, g') ->
  let pairs := combine select classes in
  Z.of_nat (length res) = sum_Z (map fst pairs) /\
  Forall (fun i => i < length y)%nat res /\
  Forall (fun num => 0 <= num)%Z (map fst pairs) /\
  (NoDup (map snd pairs) ->
   forall num c, In (num, c) pairs ->
     Z.of_nat (count_class eqb y c res) = num).
Proof.
  intros E pairs.
  destruct (subsample_indices_inv _ _ _ _ _ _ _ E) as (parts & Hparts & Hres).
  now apply (counts_of_parts y pairs parts res).
Qed.

End SamplerFacts.

Lemma combine_fst_snd {A B} (l : list A) :
  forall l' : list B, length l = length l' ->
  map fst (combine l l') = l /\ map snd (combine l l') = l'.
Proof.
  induction l as [| x l IH]; intros [| y l'] H; try discriminate.
  - split; reflexivity.
  - cbn. destruct (IH l' ltac:(cbn in H; lia)) as [-> ->]. split; reflexivity.
Qed.

Lemma combine_nth_error_In {A B} (l : list A) :
  forall (l' : list B) (i : nat) (a : A) (b : B),
  nth_error l i = Some a -> nth_error l' i = Some b -> In (a, b) (combine l l').
Proof.
  induction l as [| x l IH]; intros [| y l'] [| i] a b Ha Hb;
    cbn in *; try discriminate.
  - injection Ha as <-. injection Hb as <-. now left.
  - right. eapply IH; eassumption.
Qed.

(** [sum(bin_y[ind])] counts the indices whose label is the class that
    [bin_y] marks. *)
Lemma count_true_labels {A} (eqb : A -> A -> bool) (y : list A) (c : A)
    (ind : list nat) :
  Forall (fun k => k < length y)%nat ind ->
  count_true (map (fun k => nth k (map (fun v => eqb v c) y) false) ind)
  = count_class eqb y c ind.
Proof.
  unfold count_true, count_class.
  induction 1 as [| k ind Hk _ IH]; [reflexivity|].
  cbn [map filter].
  assert (nth k (map (fun v => eqb v c) y) false = has_label eqb y c k) as ->.
  { unfold has_label. apply nth_error_Some in Hk.
    destruct (nth_error y k) as [v |] eqn:E; [|congruence].
    apply nth_error_nth. rewrite nth_error_map, E. reflexivity. }
  destruct (has_label eqb y c k); cbn [length]; now rewrite IH.
Qed.

Section BenchmarkFacts.
Context {G : Type} {RC : RandomChoice G}.

Lemma sample_one_normal_counts (all_y : list Z) (i : nat)
    (n_normal n_anomaly : Z) (g g' : G) (ys : list bool) :
  sample_one_normal all_y i n_normal n_anomaly g = (Ok ys, g') ->
  Z.of_nat (length ys) = (n_normal + n_anomaly)%Z /\
  Z.of_nat (count_true ys) = n_anomaly.
Proof.
  unfold sample_one_normal, bind. set (bin_y := map _ all_y).
  destruct (get_subsample_indices Bool.eqb [true; false] bin_y
              [n_anomaly; n_normal] false g) as [[ind | e] g1] eqn:E;
    [|discriminate].
  cbn. intros H. injection H as <- _.
  apply (subsample_indices_inv Bool.eqb) in E.
  destruct E as (parts & Hparts & Hres).
  destruct (counts_of_parts Bool.eqb Bool.eqb_true_iff bin_y _ parts ind
              Hparts Hres) as (Hlen & Hb & _ & Hcount).
  cbn [combine map fst snd] in Hlen, Hcount.
  split.
  - rewrite length_map, Hlen. unfold sum_Z. cbn [fold_right]. lia.
  - assert (bin_y = map (fun v => Bool.eqb v true) bin_y) as Hid.
    { rewrite <- (map_id bin_y) at 1. apply map_ext.
      intros []; reflexivity. }
    rewrite Hid, (count_true_labels Bool.eqb bin_y true ind Hb).
    apply Hcount; [repeat constructor; cbn; intuition congruence | now left].
Qed.

Lemma sample_one_anomaly_counts (all_y : list Z) (i : nat)
    (n_normal n_anomaly : Z) (g g' : G) (ys : list bool) :
  (i < 10)%nat ->
  sample_one_anomaly all_y i n_normal n_anomaly g = (Ok ys, g') ->
  Z.of_nat (length ys) = (n_normal + n_anomaly)%Z /\
  Z.of_nat (count_true ys) = n_anomaly.
Proof.
  intros Hi. unfold sample_one_anomaly.
  destruct (stratified_select_closed_form n_normal n_anomaly i Hi)
    as (select & -> & Hlen10 & Hnth & Hsum & _).
  pose proof (Z.div_mod n_normal 9 ltac:(lia)) as Hdm.
  pose proof (Z.mod_pos_bound n_normal 9 ltac:(lia)) as Hr.
  assert (sum_Z select = (n_normal + n_anomaly)%Z) as Hsum' by lia.
  clear Hsum Hdm Hr.
  unfold bind. set (classes := map Z.of_nat (seq 0 10)).
  destruct (get_subsample_indices Z.eqb classes all_y select false g)
    as [[ind | e] g1] eqn:E; [|discriminate].
  cbn. intros H. injection H as <- _.
  apply (subsample_indices_inv Z.eqb) in E.
  destruct E as (parts & Hparts & Hres).
  destruct (counts_of_parts Z.eqb Z.eqb_eq all_y _ parts ind Hparts Hres)
    as (Hlen & Hb & _ & Hcount).
  destruct (combine_fst_snd select classes) as [Hfst Hsnd].
  { rewrite Hlen10. reflexivity. }
  rewrite Hfst in Hlen. rewrite Hsnd in Hcount.
  split.
  - rewrite length_map, Hlen. exact Hsum'.
  - rewrite (count_true_labels Z.eqb all_y (Z.of_nat i) ind Hb).
    apply Hcount.
    + unfold classes. apply Finite.Injective_map_NoDup; [|apply seq_NoDup].
      intros a b. apply Nat2Z.inj.
    + apply (combine_nth_error_In _ _ i); [exact Hnth|].
      unfold classes. rewrite nth_error_map, nth_error_seq.
      destruct (Nat.ltb_spec i 10); [reflexivity | lia].
Qed.

(** The consistency checks of [benchmark_digits] (lines 170-173) cannot
    fail: whenever the two samples of a round are drawn, the training
    labels are [n_train_normal + n_train_anomaly] in number with exactly
    [n_train_anomaly] anomalies among them, and likewise the test labels,
    in both modes of the benchmark. *)
Theorem benchmark_label_counts (single_digit_as_normal : bool)
    (all_y : list Z) (i : nat)
    (n_train_normal n_train_anomaly n_test_normal n_test_anomaly : Z)
    (g g' : G) (y_train y_test : list bool) :
  (i < 10)%nat ->
  draw_labels single_digit_as_normal all_y i
    n_train_normal n_train_anomaly n_test_normal n_test_anomaly g
  = (Ok (y_train, y_test), g') ->
  Z.of_nat (length y_train) = (n_train_normal + n_train_anomaly)%Z /\
  Z.of_nat (count_true y_train) = n_train_anomaly /\
  Z.of_nat (length y_test) = (n_test_normal + n_test_anomaly)%Z /\
  Z.of_nat (count_true y_test) = n_test_anomaly.
Proof.
  intros Hi E. unfold draw_labels in E.
  set (sample := if single_digit_as_normal then sample_one_normal
                 else sample_one_anomaly) in E.
  assert (forall n_normal n_anomaly g0 g1 ys,
            sample all_y i n_normal n_anomaly g0 = (Ok ys, g1) ->
            Z.of_nat (length ys) = (n_normal + n_anomaly)%Z /\
            Z.of_nat (count_true ys) = n_anomaly) as Hsample.
  { intros n_normal n_anomaly g0 g1 ys. unfold sample.
    destruct single_digit_as_normal.
    - apply sample_one_normal_counts.
    - now apply sample_one_anomaly_counts. }
  unfold bind at 1 in E.
  destruct (sample all_y i n_train_normal n_train_anomaly g)
    as [[y1 | e] g1] eqn:E1; [|discriminate].
  unfold bind at 1 in E.
  destruct (sample all_y i n_test_normal n_test_anomaly g1)
    as [[y2 | e] g2] eqn:E2; [|discriminate].
  cbn in E. injection E as <- <- _.
  destruct (Hsample _ _ _ _ _ E1) as [H1 H2].
  destruct (Hsample _ _ _ _ _ E2) as [H3 H4].
  auto.
Qed.

End BenchmarkFacts.

Lemma subsample_indices_counts_witness :
  exists res g',
    get_subsample_indices (RC := LcgChoice.lcg_rc) Z.eqb [0; 1; 2]%Z labels12
      [2; 1; 3]%Z false 7%Z = (Ok res, g') /\
    Z.of_nat (length res) = 6%Z /\
    Z.of_nat (count_class Z.eqb labels12 2%Z res) = 3%Z.
Proof.
  eexists. eexists. split; [vm_compute; reflexivity|].
  edestruct (subsample_indices_counts (RC := LcgChoice.lcg_rc) Z.eqb Z.eqb_eq
               [0; 1; 2]%Z labels12 [2; 1; 3]%Z false 7%Z)
    as (Hlen & _ & _ & Hcount).
  - vm_compute. reflexivity.
  - split; [exact Hlen|].
    apply Hcount; [|cbn; auto].
    cbn. repeat constructor; cbn; intuition discriminate.
Defined.

Lemma benchmark_label_counts_witness :
  exists y_train y_test g',
    draw_labels (RC := LcgChoice.lcg_rc) false labels30 1 9 2 9 1 7%Z
    = (Ok (y_train, y_test), g') /\
    Z.of_nat (length y_train) = 11%Z /\
    Z.of_nat (count_true y_train) = 2%Z /\
    Z.of_nat (length y_test) = 10%Z /\
    Z.of_nat (count_true y_test) = 1%Z.
Proof.
  eexists. eexists. eexists. split; [vm_compute; reflexivity|].
  eapply (benchmark_label_counts (RC := LcgChoice.lcg_rc) false labels30 1
            9 2 9 1 7%Z).
  - lia.
  - vm_compute. reflexivity.
Defined.

(* ================================================================== *)
(** * The subsample size as a fraction *)

(** A fraction in (0, 1] of [m >= 1] rows resolves to an int between 1
    and [m]: the subsample is never empty and never larger than the
    data. *)
Theorem fraction_psi_range (subsample_size : pynum) (m : nat) :
  (0 < toQ subsample_size)%Q ->
  (toQ subsample_size <= 1)%Q ->
  (1 <= m)%nat ->
  exists k, resolve_psi subsample_size m = PyInt k /\
            (1 <= k <= Z.of_nat m)%Z.
Proof.
  intros Hpos Hle Hm. unfold resolve_psi.
  apply Qle_bool_iff in Hle as Hb. rewrite Hb.
  eexists. split; [reflexivity|].
  set (q := toQ subsample_size) in *.
  assert (0 < inject_Z (Z.of_nat m))%Q as Hmq.
  { change 0%Q with (inject_Z 0). rewrite <- Zlt_Qlt. lia. }
  split.
  - assert (0 < q * inject_Z (Z.of_nat m))%Q as Hprod by nra.
    pose proof (Qle_ceiling (q * inject_Z (Z.of_nat m))) as Hc.
    assert (0 < inject_Z (Qceiling (q * inject_Z (Z.of_nat m))))%Q as H0
      by (eapply Qlt_le_trans; eassumption).
    change 0%Q with (inject_Z 0) in H0. rewrite <- Zlt_Qlt in H0. lia.
  - rewrite <- (Qceiling_Z (Z.of_nat m)) at 2.
    apply Qceiling_resp_le. nra.
Qed.

Lemma fraction_psi_range_witness :
  exists k, resolve_psi (PyFloat (1 # 4)) 100 = PyInt k /\
            (1 <= k <= Z.of_nat 100)%Z.
Proof.
  apply (fraction_psi_range (PyFloat (1 # 4)) 100).
  - reflexivity.
  - unfold Qle. cbn. lia.
  - lia.
Defined.
